(** * UDTube modules: optimisation configuration, encoder wrapper,
      embedding aggregator and classification heads

    A shallow embedding of [udtube/modules.py].  Python exceptions are an
    explicit outcome, dictionaries are finite maps, tensors are nested
    lists that carry their shape, and the element type of floating-point
    tensors is an abstract scalar interface. *)

From Stdlib Require Import ZArith QArith Lia.
From stdpp Require Import base option list gmap strings.

Local Open Scope string_scope.
Local Open Scope list_scope.
Local Open Scope nat_scope.

(** ** Python outcomes *)

Module Py.

(** The built-in exceptions the module can raise. *)
Inductive exn : Type :=
| KeyError
| TypeError
| ValueError
| RuntimeError
| AttributeError.

(** The outcome of running a piece of Python: a value, a raised exception,
    or a loop that never finishes. *)
Inductive outcome (A : Type) : Type :=
| Ok (a : A)
| Raise (e : exn)
| Diverge.

Arguments Ok {A} a.
Arguments Raise {A} e.
Arguments Diverge {A}.

Definition bind {A B : Type} (m : outcome A) (k : A -> outcome B) : outcome B :=
  match m with
  | Ok a => k a
  | Raise e => Raise e
  | Diverge => Diverge
  end.

#[global] Instance outcome_ret : MRet outcome := fun A a => Ok a.
#[global] Instance outcome_bind : MBind outcome := fun A B k m => bind m k.
#[global] Instance outcome_fmap : FMap outcome :=
  fun A B f m => bind m (fun a => Ok (f a)).

Definition returns {A : Type} (m : outcome A) : Prop := exists a, m = Ok a.
Definition raises {A : Type} (m : outcome A) : Prop := exists e, m = Raise e.

(** [self.name] where neither the instance nor its class defines [name]
    and no parameter, buffer or submodule is registered under it:
    [nn.Module.__getattr__] raises [AttributeError]. *)
Definition undefined_attribute {A : Type} (name : string) : outcome A :=
  Raise AttributeError.

(** Values passed as constructor arguments. *)
Inductive val : Type :=
| Float (q : Q)
| Int (z : Z)
| Tuple2 (a b : val).

(** [bool(x)] for an optional string: [None] and the empty string are falsy. *)
Definition truthy (s : option string) : bool :=
  match s with
  | None => false
  | Some EmptyString => false
  | Some (String _ _) => true
  end.

(** [d[k]] on a dictionary: a missing key raises [KeyError]. *)
Definition getitem {V : Type} (d : gmap string V) (k : string) : outcome V :=
  match d !! k with
  | Some v => Ok v
  | None => Raise KeyError
  end.

(** [max(xs)] over an iterable of integers: empty raises [ValueError]. *)
Definition builtin_max (xs : list nat) : outcome nat :=
  match xs with
  | [] => Raise ValueError
  | x :: rest => Ok (foldr Nat.max x rest)
  end.

(** [xs[:k]] for an integer [k]; a negative [k] counts from the end. *)
Definition slice_to {A : Type} (k : Z) (xs : list A) : list A :=
  if (0 <=? k)%Z then take (Z.to_nat k) xs
  else take (length xs - Z.to_nat (- k)) xs.

(** [xs[-k:]] for an integer [k]. *)
Definition slice_last {A : Type} (k : Z) (xs : list A) : list A :=
  if (0 <? k)%Z then drop (length xs - Z.to_nat k) xs
  else drop (Z.to_nat (- k)) xs.

(** [xs[s:e]] for non-negative [s] and [e]; out-of-range bounds clamp. *)
Definition slice {A : Type} (s e : nat) (xs : list A) : list A :=
  take (e - s) (drop s xs).

End Py.

Import Py.

(** ** The part of [torch.optim] that [OptimizationConfig] calls

    The optimizer classes are library code.  What matters to the caller is
    their public constructor signature: the order of the positional
    parameters after [params], and the argument validation that the
    constructors perform before building the optimizer. *)

Module optim.

Inductive family : Type := Adadelta | Adam | AdamW | SGD.

(** A trainable parameter is identified by its index. *)
Definition nn_Parameter : Type := nat.

Record Optimizer : Type := mkOptimizer {
  opt_family : family;
  param_groups : list nn_Parameter;
  (** the hyper-parameters that the call bound explicitly *)
  hyper : gmap string val
}.

(** Leading positional parameters after [params], in declaration order. *)
Definition positional (c : family) : list string :=
  match c with
  | Adadelta => ["lr"; "rho"; "eps"; "weight_decay"]
  | Adam | AdamW => ["lr"; "betas"; "eps"; "weight_decay"]
  | SGD => ["lr"; "momentum"; "dampening"; "weight_decay"]
  end.

(** Python's binding of positional arguments to parameter names. *)
Fixpoint bind_positional (names : list string) (args : list val)
    {struct args} : outcome (gmap string val) :=
  match args, names with
  | [], _ => Ok ∅
  | _ :: _, [] => Raise TypeError
  | v :: args', n :: names' =>
      bound ← bind_positional names' args'; Ok (<[n := v]> bound)
  end.

Definition as_number (v : val) : outcome Q :=
  match v with
  | Float q => Ok q
  | Int z => Ok (inject_Z z)
  | Tuple2 _ _ => Raise TypeError
  end.

(** [v[i]] for [i] in {0, 1}: only a tuple is subscriptable. *)
Definition subscript (v : val) (second : bool) : outcome val :=
  match v with
  | Tuple2 a b => Ok (if second then b else a)
  | Float _ | Int _ => Raise TypeError
  end.

(** [if not lo <= v (< | <=) hi: raise ValueError]; an unbound
    hyper-parameter keeps its (valid) default. *)
Definition require (h : gmap string val) (name : string)
    (p : val -> outcome bool) : outcome unit :=
  match h !! name with
  | None => Ok ()
  | Some v => ok ← p v; if ok : bool then Ok () else Raise ValueError
  end.

Definition ge0 (v : val) : outcome bool :=
  q ← as_number v; Ok (Qle_bool 0 q).

Definition in_unit_closed (v : val) : outcome bool :=
  q ← as_number v; Ok (Qle_bool 0 q && Qle_bool q 1).

Definition beta_ok (second : bool) (v : val) : outcome bool :=
  b ← subscript v second; q ← as_number b;
  Ok (Qle_bool 0 q && negb (Qle_bool 1 q)).

Definition validate (c : family) (h : gmap string val) : outcome unit :=
  match c with
  | Adadelta =>
      require h "lr" ge0;; require h "rho" in_unit_closed;;
      require h "eps" ge0;; require h "weight_decay" ge0
  | Adam | AdamW =>
      require h "lr" ge0;; require h "eps" ge0;;
      require h "betas" (beta_ok false);; require h "betas" (beta_ok true);;
      require h "weight_decay" ge0
  | SGD =>
      require h "lr" ge0;; require h "momentum" ge0;;
      require h "weight_decay" ge0
  end.

(** A call of the class [c] with [params] followed by [args]. *)
Definition construct (c : family) (params : list nn_Parameter) (args : list val)
  : outcome Optimizer :=
  h ← bind_positional (positional c) args;
  validate c h;;
  match params with
  | [] => Raise ValueError
  | _ :: _ => Ok (mkOptimizer c params h)
  end.

End optim.

(** ** The [schedulers] module

    [schedulers.ReduceOnPlateau] and
    [schedulers.WarmupInverseSquareRootScheduler] are defined outside the
    two files modelled here, so their constructors are an interface. *)

Inductive scheduler_class : Type :=
| ReduceOnPlateau
| WarmupInverseSquareRootScheduler.

Class Schedulers : Type := {
  Scheduler : Type;
  new_scheduler :
    scheduler_class -> optim.Optimizer -> list val -> outcome Scheduler
}.

(** ** [OptimizationConfig] *)

Module OptimizationConfig.

Record t : Type := mk {
  optimizer : string;
  learning_rate : Q;
  beta1 : Q;
  beta2 : Q;
  scheduler : option string;
  reduceonplateau_factor : Q;
  reduceonplateau_patience : Q;
  min_learning_rate : Q;
  warmup_steps : Z
}.

Definition optim_fac : gmap string optim.family :=
  <["adadelta" := optim.Adadelta]>
  (<["adam" := optim.Adam]>
  (<["adamw" := optim.AdamW]>
  (<["sgd" := optim.SGD]> ∅))).

Definition _get_optimizer (self : t) (parameters : list optim.nn_Parameter)
  : outcome optim.Optimizer :=
  cls ← getitem optim_fac (optimizer self);
  optim.construct cls parameters
    [Float (learning_rate self); Float (beta1 self); Float (beta2 self)].

Definition scheduler_fac : gmap string scheduler_class :=
  <["reduceonplateau" := ReduceOnPlateau]>
  (<["warmupinvsqrt" := WarmupInverseSquareRootScheduler]> ∅).

(** The key used for the lookup when [self.scheduler] is truthy. *)
Definition scheduler_key (self : t) : string := default EmptyString (scheduler self).

Definition _get_scheduler `{Schedulers} (self : t) (optimizer : optim.Optimizer)
  : outcome Scheduler :=
  cls ← getitem scheduler_fac (scheduler_key self);
  new_scheduler cls optimizer
    [Float (reduceonplateau_factor self);
     Float (reduceonplateau_patience self);
     Float (min_learning_rate self);
     Int (warmup_steps self)].

(** Values of the inner ["lr_scheduler"] dictionary. *)
Inductive sched_entry `{Schedulers} : Type :=
| TheScheduler (s : Scheduler)
| Str (s : string).

(** Values of the dictionary that [configure] returns. *)
Inductive entry `{Schedulers} : Type :=
| TheOptimizer (o : optim.Optimizer)
| Dict (d : gmap string sched_entry).

Definition configure `{Schedulers} (self : t)
    (parameters : list optim.nn_Parameter) : outcome (gmap string entry) :=
  optimizer ← _get_optimizer self parameters;
  let optdict : gmap string entry := {["optimizer" := TheOptimizer optimizer]} in
  if truthy (scheduler self) then
    sched ← _get_scheduler self optimizer;
    Ok (<["lr_scheduler" :=
            Dict (<["scheduler" := TheScheduler sched]>
                  {["monitor" := Str "val_loss"]})]> optdict)
  else Ok optdict.

(** A call of [self.configure] with the positional arguments [args]: the
    method takes exactly one argument besides [self]. *)
Definition call_configure `{Schedulers} (self : t)
    (args : list (list optim.nn_Parameter)) : outcome (gmap string entry) :=
  match args with
  | [parameters] => configure self parameters
  | _ => Raise TypeError
  end.

End OptimizationConfig.

(** ** Tensors

    The element type of a floating-point tensor is an interface: the
    module only adds elements, divides a sum by a count, multiplies (in the
    linear layers) and applies the pointwise nonlinearity. *)

Class Scalar (R : Type) : Type := {
  zero : R;
  add : R -> R -> R;
  mul : R -> R -> R;
  (** [divn x n] is [x / n] for a count [n] *)
  divn : R -> nat -> R;
  leaky_relu : R -> R
}.

(** The laws of exact arithmetic that the single-subword case relies on. *)
Class ExactScalar (R : Type) `{Scalar R} : Prop := {
  add_zero_l : forall x : R, add zero x = x;
  divn_one : forall x : R, divn x 1 = x
}.

Module torch.

(** A 1-D tensor is a list; its shape is its length.  Tensors of higher
    rank carry the sizes of their trailing axes, so that an empty tensor
    still has a shape. *)
Record Tensor2 (A : Type) : Type := mkTensor2 {
  rows : list (list A);
  cols : nat
}.

Record Tensor3 (A : Type) : Type := mkTensor3 {
  mats : list (list (list A));
  dim1 : nat;
  dim2 : nat
}.

Record Tensor4 (A : Type) : Type := mkTensor4 {
  cubes : list (list (list (list A)));
  d1 : nat;
  d2 : nat;
  d3 : nat
}.

(** [torch.device] *)
Inductive device : Type :=
| cpu
| cuda (index : nat).

Arguments mkTensor2 {A} rows cols.
Arguments rows {A} t.
Arguments cols {A} t.
Arguments mkTensor3 {A} mats dim1 dim2.
Arguments mats {A} t.
Arguments dim1 {A} t.
Arguments dim2 {A} t.
Arguments mkTensor4 {A} cubes d1 d2 d3.
Arguments cubes {A} t.
Arguments d1 {A} t.
Arguments d2 {A} t.
Arguments d3 {A} t.

Section Structure.
Context {A : Type}.

(** [len(t)]: the size of the leading axis. *)
Definition len (t : Tensor2 A) : nat := length (rows t).

Definition shape2 (t : Tensor2 A) : nat * nat := (len t, cols t).

Definition shape3 (t : Tensor3 A) : nat * nat * nat :=
  (length (mats t), dim1 t, dim2 t).

(** Every row has the declared width. *)
Definition wf_rows (width : nat) (m : list (list A)) : Prop :=
  Forall (fun r => length r = width) m.

Definition wf2 (t : Tensor2 A) : Prop := wf_rows (cols t) (rows t).

Definition wf3 (t : Tensor3 A) : Prop :=
  Forall (fun m => length m = dim1 t /\ wf_rows (dim2 t) m) (mats t).

(** [t.to(device)]: the same values on another device. *)
Definition to (t : Tensor2 A) (d : device) : Tensor2 A := t.

(** [t[:k]]: a slice of the leading axis. *)
Definition slice_to2 (k : Z) (t : Tensor2 A) : Tensor2 A :=
  mkTensor2 (slice_to k (rows t)) (cols t).

(** [t[s:e]]: a slice of the leading axis. *)
Definition slice2 (s e : nat) (t : Tensor2 A) : Tensor2 A :=
  mkTensor2 (slice s e (rows t)) (cols t).

(** Iterating over a 3-D tensor yields its 2-D slices along axis 0. *)
Definition unbind (t : Tensor3 A) : list (Tensor2 A) :=
  map (fun m => mkTensor2 m (dim2 t)) (mats t).

(** [torch.stack] of 1-D tensors: the list must be non-empty and the
    tensors of equal size. *)
Definition stack1 (vs : list (list A)) : outcome (Tensor2 A) :=
  match vs with
  | [] => Raise RuntimeError
  | v :: rest =>
      if forallb (fun u => length u =? length v) rest
      then Ok (mkTensor2 vs (length v))
      else Raise RuntimeError
  end.

Definition same_shape2 (t u : Tensor2 A) : bool :=
  (len u =? len t) && (cols u =? cols t).

(** [torch.stack] of 2-D tensors. *)
Definition stack2 (ts : list (Tensor2 A)) : outcome (Tensor3 A) :=
  match ts with
  | [] => Raise RuntimeError
  | t :: rest =>
      if forallb (same_shape2 t) rest
      then Ok (mkTensor3 (map rows ts) (len t) (cols t))
      else Raise RuntimeError
  end.

Definition same_shape3 (t u : Tensor3 A) : bool :=
  (length (mats u) =? length (mats t)) && (dim1 u =? dim1 t)
  && (dim2 u =? dim2 t).

(** [torch.stack] of 3-D tensors. *)
Definition stack3 (ts : list (Tensor3 A)) : outcome (Tensor4 A) :=
  match ts with
  | [] => Raise RuntimeError
  | t :: rest =>
      if forallb (same_shape3 t) rest
      then Ok (mkTensor4 (map mats ts) (length (mats t)) (dim1 t) (dim2 t))
      else Raise RuntimeError
  end.

End Structure.

Section Numeric.
Context {R : Type} `{Scalar R}.

(** Entry [j] of a row, for [j] inside the row. *)
Definition at_ (j : nat) (r : list R) : R := nth j r zero.

(** Column [j] of a matrix given by its rows. *)
Definition column (j : nat) (m : list (list R)) : list R := map (at_ j) m.

(** The sum of a sequence, accumulated from the left starting at zero. *)
Definition sum (xs : list R) : R := foldl add zero xs.

(** [torch.mean(t, dim=0)] of a 2-D tensor: entry [j] is the sum of column
    [j] divided by the number of rows. *)
Definition mean0 (t : Tensor2 R) : list R :=
  map (fun j => divn (sum (column j (rows t))) (len t)) (seq 0 (cols t)).

(** The transpose of an [n x width] matrix given by its rows. *)
Definition transpose_rows (width : nat) (m : list (list R)) : list (list R) :=
  map (fun j => column j m) (seq 0 width).

(** [t.T] *)
Definition T (t : Tensor2 R) : Tensor2 R :=
  mkTensor2 (transpose_rows (cols t) (rows t)) (len t).

(** [nn.functional.pad(t, (0, right), value=value)]: pads the last axis on
    its right-hand side. *)
Definition pad (t : Tensor2 R) (right : nat) (value : R) : Tensor2 R :=
  mkTensor2 (map (fun r => r ++ replicate right value) (rows t))
            (cols t + right).

(** [t.permute(0, 2, 1)] *)
Definition permute021 (t : Tensor3 R) : Tensor3 R :=
  mkTensor3 (map (transpose_rows (dim2 t)) (mats t)) (dim2 t) (dim1 t).

(** [torch.mean(t, dim=0)] of a 4-D tensor. *)
Definition mean0_4 (t : Tensor4 R) : Tensor3 R :=
  let entry b l h :=
    divn (sum (map (fun c => at_ h (nth l (nth b c []) [])) (cubes t)))
         (length (cubes t)) in
  mkTensor3
    (map (fun b => map (fun l => map (entry b l) (seq 0 (d3 t)))
                       (seq 0 (d2 t)))
         (seq 0 (d1 t)))
    (d2 t) (d3 t).

End Numeric.

End torch.

Import torch.

(** ** The tokenized batch

    One [Encoding] per sentence, as the tokenizer library returns it:
    [word_ids] maps each subword position to the index of its word (or
    [None] for padding) and [word_to_tokens] resolves a word index to its
    span of subword positions, or to [None] when the word has no subword. *)

Record Encoding : Type := mkEncoding {
  word_ids : list (option nat);
  word_to_tokens : nat -> option (nat * nat)
}.

Record BatchEncoding : Type := mkBatchEncoding {
  input_ids : Tensor2 Z;
  attention_mask : Tensor2 Z;
  encodings : list Encoding
}.

Record Batch : Type := mkBatch { tokens : BatchEncoding }.

Inductive log_record : Type :=
| Warning (format : string) (args : list Z).

(** ** [UDTubeEncoder] *)

Module UDTubeEncoder.

Section WithScalar.
Context {R : Type} `{Scalar R} `{Schedulers}.

Record t : Type := mk {
  (** the wrapped model, called on token ids and attention mask, returning
      its [hidden_states] *)
  encoder : Tensor2 Z -> Tensor2 Z -> outcome (list (Tensor3 R));
  (** [encoder.config.max_position_embeddings] *)
  max_position_embeddings : Z;
  dropout_layer : Tensor3 R -> Tensor3 R;
  pooling_layers : Z;
  optconf : OptimizationConfig.t
}.

(** The [while] loop of [_group_embeddings], started at cursor [i] with the
    spans gathered so far.  Each unit of fuel pays for one test of the loop
    condition. *)
Fixpoint collect_indices (fuel : nat) (sentence_encodings : Encoding)
    (i : nat) (indices : list (nat * nat)) : outcome (list (nat * nat)) :=
  match fuel with
  | O => Diverge
  | S fuel' =>
      if i <? length (word_ids sentence_encodings) then
        match word_ids sentence_encodings !! i with
        | Some (Some word_id) =>
            match word_to_tokens sentence_encodings word_id with
            | Some (start, end_) =>
                collect_indices fuel' sentence_encodings end_
                                (indices ++ [(start, end_)])
            | None => Raise TypeError
            end
        | _ => Ok indices
        end
      else Ok indices
  end.

(** One more test of the loop condition than there are subword positions:
    a run that needs more visits some cursor twice and never ends. *)
Definition loop_fuel (sentence_encodings : Encoding) : nat :=
  S (length (word_ids sentence_encodings)).

(** The body of the [for] loop of [_group_embeddings]: the word embeddings
    of one sentence. *)
Definition group_sentence (sentence_encodings : Encoding)
    (sentence_embeddings : Tensor2 R) : outcome (Tensor2 R) :=
  indices ← collect_indices (loop_fuel sentence_encodings)
                            sentence_encodings 0 [];
  stack1 (map (fun '(start, end_) =>
                 mean0 (slice2 start end_ sentence_embeddings))
              indices).

Definition _group_embeddings (embeddings : Tensor3 R)
    (tokenized : BatchEncoding) : outcome (Tensor3 R) :=
  new_sentence_embeddings ←
    mapM (fun '(sentence_encodings, sentence_embeddings) =>
            group_sentence sentence_encodings sentence_embeddings)
         (zip (encodings tokenized) (unbind embeddings));
  pad_max ← builtin_max (map len new_sentence_embeddings);
  stacked ←
    stack2 (map (fun sentence_embedding =>
                   pad (T sentence_embedding)
                       (pad_max - len sentence_embedding) zero)
                new_sentence_embeddings);
  Ok (permute021 stacked).

(** Lines 193-203 of [forward]: the log records written and the batch as
    it is after the two assignments. *)
Definition trim (self : t) (batch : Batch) : list log_record * Batch :=
  let actual_length := Z.of_nat (cols (input_ids (tokens batch))) in
  let max_length := max_position_embeddings self in
  if (max_length <? actual_length)%Z then
    ([Warning "truncating sequence from %d to %d"
              [actual_length; max_length]],
     mkBatch (mkBatchEncoding
                (slice_to2 max_length (input_ids (tokens batch)))
                (slice_to2 max_length (attention_mask (tokens batch)))
                (encodings (tokens batch))))
  else ([], batch).

(** [forward]: the log, the batch left behind, and the result.  The
    arguments of the encoder call are evaluated first, and the first of
    them reads [self.device]: the class is a plain [nn.Module], defines
    no [device] and registers nothing under that name. *)
Definition forward (self : t) (batch : Batch)
  : list log_record * Batch * outcome (Tensor3 R) :=
  let '(log, batch) := trim self batch in
  (log, batch,
   device ← undefined_attribute "device";
   x ← encoder self (to (input_ids (tokens batch)) device)
                    (to (attention_mask (tokens batch)) device);
   x ← stack3 (slice_last (pooling_layers self) x);
   let x := mean0_4 x in
   let x := dropout_layer self x in
   _group_embeddings x (tokens batch)).

Definition configure_optimizers (self : t)
  : outcome (gmap string OptimizationConfig.entry) :=
  OptimizationConfig.call_configure (optconf self) [].

End WithScalar.

Arguments t : clear implicits.

End UDTubeEncoder.

(** ** [Logits] *)

Record Logits (R : Type) : Type := mkLogits {
  upos : option (Tensor3 R);
  xpos : option (Tensor3 R);
  lemma : option (Tensor3 R);
  feats : option (Tensor3 R)
}.

Arguments mkLogits {R} upos xpos lemma feats.
Arguments upos {R} l.
Arguments xpos {R} l.
Arguments lemma {R} l.
Arguments feats {R} l.

(** ** [torch.nn] layers used by the heads *)

Module nn.

(** [nn.Linear]: [weight] has one row per output feature. *)
Record Linear (R : Type) : Type := mkLinear {
  in_features : nat;
  out_features : nat;
  weight : list (list R);
  bias : list R
}.

Arguments mkLinear {R} in_features out_features weight bias.
Arguments in_features {R} l.
Arguments out_features {R} l.
Arguments weight {R} l.
Arguments bias {R} l.

(** The random initialisation of a fresh [nn.Linear]: a generator state
    goes in, the weights, the bias and the next state come out. *)
Class Init (R : Type) : Type := {
  Generator : Type;
  reset_parameters :
    Generator -> nat -> nat -> list (list R) * list R * Generator
}.

Section Layers.
Context {R : Type} `{Scalar R}.

Definition new_Linear `{Init R} (g : Generator) (in_size out_size : nat)
  : Linear R * Generator :=
  let '(w, b, g') := reset_parameters g in_size out_size in
  (mkLinear in_size out_size w b, g').

Definition dot (x w : list R) : R :=
  sum (map (fun '(a, b) => mul a b) (zip x w)).

(** One input row through the layer: output feature [k] is the row times
    row [k] of the weight, plus entry [k] of the bias. *)
Definition linear_row (l : Linear R) (x : list R) : list R :=
  map (fun k => add (dot x (nth k (weight l) [])) (at_ k (bias l)))
      (seq 0 (out_features l)).

(** [nn.Sequential(nn.Linear(...), nn.LeakyReLU())] applied to a tensor of
    shape N x L x [in_features]; another width is a shape error. *)
Definition Sequential (l : Linear R) (x : Tensor3 R) : outcome (Tensor3 R) :=
  if dim2 x =? in_features l then
    Ok (mkTensor3
          (map (map (fun row => map leaky_relu (linear_row l row))) (mats x))
          (dim1 x) (out_features l))
  else Raise RuntimeError.

End Layers.

End nn.

(** ** [UDTubeClassifier] *)

Module UDTubeClassifier.

Section WithScalar.
Context {R : Type} `{Scalar R} `{nn.Init R} `{Schedulers}.

Record t : Type := mk {
  upos_head : option (nn.Linear R);
  xpos_head : option (nn.Linear R);
  lemma_head : option (nn.Linear R);
  feats_head : option (nn.Linear R);
  optconf : OptimizationConfig.t
}.

(** [_make_head] reads [self.hidden_size] before it builds the layer.
    [UDTubeEncoder] has a property of that name; this class has none, so
    the read raises and no layer is initialised. *)
Definition _make_head (g : nn.Generator) (out_size : nat)
  : outcome (nn.Linear R * nn.Generator) :=
  hidden_size ← undefined_attribute "hidden_size";
  Ok (nn.new_Linear g hidden_size out_size).

(** [self._make_head(out_size) if use else None] *)
Definition head_if (use : bool) (g : nn.Generator) (out_size : nat)
  : outcome (option (nn.Linear R) * nn.Generator) :=
  if use then
    '(h, g') ← _make_head g out_size; Ok (Some h, g')
  else Ok (None, g).

(** [__init__]: the instance with its four head attributes, and the state
    the random generator is left in. *)
Definition __init__ (use_upos use_xpos use_lemma use_feats : bool)
    (upos_out_size xpos_out_size lemma_out_size feats_out_size : nat)
    (kwargs : OptimizationConfig.t) (g : nn.Generator)
  : outcome (t * nn.Generator) :=
  '(upos_head, g) ← head_if use_upos g upos_out_size;
  '(xpos_head, g) ← head_if use_xpos g xpos_out_size;
  '(lemma_head, g) ← head_if use_lemma g lemma_out_size;
  '(feats_head, g) ← head_if use_feats g feats_out_size;
  Ok (mk upos_head xpos_head lemma_head feats_head kwargs, g).

Definition is_not_None {A : Type} (x : option A) : bool :=
  match x with
  | Some _ => true
  | None => false
  end.

Definition use_upos (self : t) : bool := is_not_None (upos_head self).
Definition use_xpos (self : t) : bool := is_not_None (xpos_head self).
Definition use_lemma (self : t) : bool := is_not_None (lemma_head self).
Definition use_feats (self : t) : bool := is_not_None (feats_head self).

(** Calling a head attribute: [None] is not callable. *)
Definition call_head (head : option (nn.Linear R)) (embeddings : Tensor3 R)
  : outcome (Tensor3 R) :=
  match head with
  | Some h => nn.Sequential h embeddings
  | None => Raise TypeError
  end.

(** [head(embeddings).permute(0, 2, 1) if use else None] *)
Definition logits_if (use : bool) (head : option (nn.Linear R))
    (embeddings : Tensor3 R) : outcome (option (Tensor3 R)) :=
  if use then
    y ← call_head head embeddings; Ok (Some (permute021 y))
  else Ok None.

Definition forward (self : t) (embeddings : Tensor3 R)
  : outcome (Logits R) :=
  upos ← logits_if (use_upos self) (upos_head self) embeddings;
  xpos ← logits_if (use_xpos self) (xpos_head self) embeddings;
  lemma ← logits_if (use_lemma self) (lemma_head self) embeddings;
  feats ← logits_if (use_feats self) (feats_head self) embeddings;
  Ok (mkLogits upos xpos lemma feats).

Definition configure_optimizers (self : t)
  : outcome (gmap string OptimizationConfig.entry) :=
  OptimizationConfig.call_configure (optconf self) [].

End WithScalar.

Arguments t : clear implicits.

End UDTubeClassifier.

(** ** The cursor of the span-collecting loop *)

(** The cursor after one iteration of the loop at cursor [i], when the
    loop goes on from there. *)
Definition next_cursor (enc : Encoding) (i : nat) : option nat :=
  if i <? length (word_ids enc) then
    match word_ids enc !! i with
    | Some (Some word_id) =>
        match word_to_tokens enc word_id with
        | Some (_, end_) => Some end_
        | None => None
        end
    | _ => None
    end
  else None.

(** The cursor after [n] iterations started at [i], if the loop gets that
    far. *)
Fixpoint cursor_after (enc : Encoding) (n i : nat) : option nat :=
  match n with
  | O => Some i
  | S n' =>
      match next_cursor enc i with
      | Some j => cursor_after enc n' j
      | None => None
      end
  end.

(** ** The data model of a tokenized sentence

    The word-id map of a sentence lists, word after word starting at word
    0, one label per subword, followed by padding.  [layout_from w lens pad]
    is the map of the words [w, w+1, ...] having [lens] subwords each,
    followed by [pad] padding positions. *)

Fixpoint layout_from (w : nat) (lens : list nat) (pad : nat)
  : list (option nat) :=
  match lens with
  | [] => replicate pad None
  | n :: rest => replicate n (Some w) ++ layout_from (S w) rest pad
  end.

Definition layout (lens : list nat) (pad : nat) : list (option nat) :=
  layout_from 0 lens pad.

(** The adjacent spans, starting at position [s], of words having [lens]
    subwords each. *)
Fixpoint spans_from (s : nat) (lens : list nat) : list (nat * nat) :=
  match lens with
  | [] => []
  | n :: rest => (s, s + n) :: spans_from (s + n) rest
  end.

(** The subwords of word [w] occupy exactly the positions [s, e). *)
Definition occupies (ids : list (option nat)) (w s e : nat) : Prop :=
  s < e /\ e <= length ids /\
  forall p, ids !! p = Some (Some w) <-> s <= p < e.

(** What the module expects of the tokenizer: a word that occupies a span
    is resolved to that span. *)
Definition resolves_spans (enc : Encoding) : Prop :=
  forall w s e, occupies (word_ids enc) w s e ->
                word_to_tokens enc w = Some (s, e).

(** A sentence whose words have [lens] subwords each (at least one). *)
Definition tokenized_as (enc : Encoding) (lens : list nat) : Prop :=
  resolves_spans enc /\
  Forall (fun n => 0 < n) lens /\
  exists pad, word_ids enc = layout lens pad.

(** Modelled from the spec: the tokenization stage is outside the source
    files modelled here.  The span of a word runs from the first position
    labelled with it to one past the last such position; a word without
    any subword has no span. *)
Definition first_to_last (ids : list (option nat)) (w : nat)
  : option (nat * nat) :=
  match filter (fun p => ids !! p = Some (Some w)) (seq 0 (length ids)) with
  | [] => None
  | p :: ps => Some (p, S (List.last ps p))
  end.

Definition encode (ids : list (option nat)) : Encoding :=
  mkEncoding ids (first_to_last ids).

(** The arithmetic mean of entry [j] of the rows [s, ..., e-1] of [m]. *)
Definition mean_of_span `{Scalar R} (m : list (list R)) (s e j : nat) : R :=
  divn (sum (map (fun k => at_ j (nth k m [])) (seq s (e - s)))) (e - s).

(** The word embeddings of one sentence whose words have the given spans:
    one row per span, the mean of the subword embeddings of the span. *)
Definition span_means `{Scalar R} (spans : list (nat * nat))
    (emb : Tensor2 R) : Tensor2 R :=
  mkTensor2 (map (fun '(s, e) => mean0 (slice2 s e emb)) spans) (cols emb).

(** The per-sentence word embeddings of a batch whose sentences have the
    given subword counts per word. *)
Definition batch_span_means `{Scalar R} (lenss : list (list nat))
    (embeddings : Tensor3 R) : list (Tensor2 R) :=
  zip_with (fun lens emb => span_means (spans_from 0 lens) emb)
           lenss (unbind embeddings).

(** A per-sentence tensor padded with zero rows up to [n] words. *)
Definition zero_padded `{Scalar R} (n : nat) (t : Tensor2 R)
  : list (list R) :=
  rows t ++ replicate (n - len t) (replicate (cols t) zero).

(** ** Instances used in the worked examples *)

(** Exact rational arithmetic. *)
#[export] Instance Q_scalar : Scalar Q := {|
  zero := 0%Q;
  add := Qplus;
  mul := Qmult;
  divn := fun x n => (x / inject_Z (Z.of_nat n))%Q;
  leaky_relu := fun x => if Qle_bool 0 x then x else (x * (1 # 100))%Q
|}.

(** Modelled from the spec: the [schedulers] module is outside the source
    files modelled here; its constructors are total and only allocate the
    scheduler, which is recorded as the class and the arguments given. *)
Definition recording_schedulers : Schedulers := {|
  Scheduler := scheduler_class * optim.Optimizer * list val;
  new_scheduler := fun c o args => Ok (c, o, args)
|}.

(** An initialiser that fills weights with ones and biases with zeros. *)
Definition ones_init : nn.Init Q := {|
  nn.Generator := nat;
  nn.reset_parameters := fun g i o =>
    (replicate o (replicate i 1%Q), replicate o 0%Q, S g)
|}.

Definition sgd_config (scheduler : option string) : OptimizationConfig.t :=
  OptimizationConfig.mk "sgd" (1 # 1000) (9 # 10) (999 # 1000) scheduler
                        (1 # 10) 10 0 100.

Definition adam_config : OptimizationConfig.t :=
  OptimizationConfig.mk "adam" (1 # 1000) (9 # 10) (999 # 1000) None
                        (1 # 10) 10 0 100.

(** An encoder that supports two positions and returns one layer whose
    single hidden component is the token id. *)
Definition two_position_encoder : UDTubeEncoder.t Q :=
  UDTubeEncoder.mk
    (fun ids mask =>
       Ok [mkTensor3 (map (map (fun z => [inject_Z z])) (rows ids))
                     (cols ids) 1])
    2 (fun x => x) 1 (sgd_config None).

(** One sentence of three subwords, one word each. *)
Definition one_sentence_batch : Batch :=
  mkBatch (mkBatchEncoding
             (mkTensor2 [[101; 102; 103]%Z] 3)
             (mkTensor2 [[1; 1; 1]%Z] 3)
             [encode [Some 0; Some 1; Some 2]]).

(** Three sentences of three subwords, one word each. *)
Definition three_sentence_batch : Batch :=
  mkBatch (mkBatchEncoding
             (mkTensor2 [[11; 12; 13]; [21; 22; 23]; [31; 32; 33]]%Z 3)
             (mkTensor2 [[1; 1; 1]; [1; 1; 1]; [1; 1; 1]]%Z 3)
             [encode [Some 0; Some 1; Some 2];
              encode [Some 0; Some 1; Some 2];
              encode [Some 0; Some 1; Some 2]]).

(** ** The four tasks, to address heads and slots uniformly *)

Inductive task : Type := UPOS | XPOS | LEMMA | FEATS.

Definition head_of {R : Type} (self : UDTubeClassifier.t R) (k : task)
  : option (nn.Linear R) :=
  match k with
  | UPOS => UDTubeClassifier.upos_head self
  | XPOS => UDTubeClassifier.xpos_head self
  | LEMMA => UDTubeClassifier.lemma_head self
  | FEATS => UDTubeClassifier.feats_head self
  end.

Definition slot_of {R : Type} (l : Logits R) (k : task)
  : option (Tensor3 R) :=
  match k with
  | UPOS => upos l
  | XPOS => xpos l
  | LEMMA => lemma l
  | FEATS => feats l
  end.

(** Word embeddings of one sentence of two words, hidden size two. *)
Definition two_word_embeddings : Tensor3 Q :=
  mkTensor3 [[[1; 2]; [3; -4]]]%Q 2 2.

(** A batch of two sentences with 3 and 5 words, six subword positions
    and hidden size 2: the words of the first sentence have 1, 2 and 1
    subwords and two positions of padding follow. *)
Definition example_lenss : list (list nat) := [[1; 2; 1]; [1; 1; 1; 1; 2]].

Definition example_tokenized : BatchEncoding :=
  mkBatchEncoding
    (mkTensor2 [[5; 6; 7; 8; 0; 0]; [9; 10; 11; 12; 13; 14]]%Z 6)
    (mkTensor2 [[1; 1; 1; 1; 0; 0]; [1; 1; 1; 1; 1; 1]]%Z 6)
    [encode (layout [1; 2; 1] 2); encode (layout [1; 1; 1; 1; 2] 0)].

Definition example_embeddings : Tensor3 Q :=
  mkTensor3
    [[[1; 2]; [3; 4]; [5; 6]; [7; 8]; [9; 9]; [9; 9]];
     [[1; 0]; [0; 1]; [2; 2]; [3; 3]; [4; 6]; [6; 8]]]%Q
    6 2.

(** A batch whose second sentence is all padding. *)
Definition empty_sentence_tokenized : BatchEncoding :=
  mkBatchEncoding
    (mkTensor2 [[5; 6; 7; 8; 0; 0]; [0; 0; 0; 0; 0; 0]]%Z 6)
    (mkTensor2 [[1; 1; 1; 1; 0; 0]; [0; 0; 0; 0; 0; 0]]%Z 6)
    [encode (layout [1; 2; 1] 2); encode (layout [] 6)].

(** ** Further worked inputs *)

Definition adadelta_config : OptimizationConfig.t :=
  OptimizationConfig.mk "adadelta" 1 (9 # 10) (1 # 1000000) None
                        (1 # 10) 10 0 100.

Definition adamw_plateau_config : OptimizationConfig.t :=
  OptimizationConfig.mk "adamw" (1 # 1000) (9 # 10) (999 # 1000)
                        (Some "reduceonplateau") (1 # 10) 10 0 100.

(** Every span that the tokenizer resolves for the word at a position ends
    beyond that position. *)
Definition advances (enc : Encoding) : Prop :=
  forall i w s e,
    word_ids enc !! i = Some (Some w) ->
    word_to_tokens enc w = Some (s, e) ->
    i < e.

(** A sentence of two words whose second word resolves to no span. *)
Definition spanless_encoding : Encoding :=
  mkEncoding [Some 0; Some 1]
             (fun w => if w =? 0 then Some (0, 1) else None).

(** A batch without sentences. *)
Definition no_sentence_tokenized : BatchEncoding :=
  mkBatchEncoding (mkTensor2 [] 6) (mkTensor2 [] 6) [].

(** The example embeddings with other values at the two padding
    positions of the first sentence. *)
Definition example_embeddings_other_padding : Tensor3 Q :=
  mkTensor3
    [[[1; 2]; [3; 4]; [5; 6]; [7; 8]; [0; 0]; [-1; 5]];
     [[1; 0]; [0; 1]; [2; 2]; [3; 3]; [4; 6]; [6; 8]]]%Q
    6 2.

(** * Properties *)

(** ** Outcomes *)

Lemma bind_Ok {A B : Type} (m : outcome A) (k : A -> outcome B) (b : B) :
  m ≫= k = Ok b <-> exists a, m = Ok a /\ k a = Ok b.
Proof.
  destruct m as [a | e |]; cbn; split.
  - eauto.
  - intros (a' & Hm & Hk). injection Hm as ->. exact Hk.
  - discriminate.
  - intros (a' & Hm & _); discriminate.
  - discriminate.
  - intros (a' & Hm & _); discriminate.
Qed.

Lemma bind_Ok_l {A B : Type} (a : A) (k : A -> outcome B) :
  Ok a ≫= k = k a.
Proof. reflexivity. Qed.

(** ** The optimizer and scheduler factories *)

Lemma optim_fac_None (name : string) :
  OptimizationConfig.optim_fac !! name = None <->
  name ∉ ["adadelta"; "adam"; "adamw"; "sgd"].
Proof.
  unfold OptimizationConfig.optim_fac.
  rewrite !lookup_insert_None, !not_elem_of_cons.
  rewrite lookup_empty. pose proof (not_elem_of_nil name).
  intuition congruence.
Qed.

Lemma scheduler_fac_None (name : string) :
  OptimizationConfig.scheduler_fac !! name = None <->
  name ∉ ["reduceonplateau"; "warmupinvsqrt"].
Proof.
  unfold OptimizationConfig.scheduler_fac.
  rewrite !lookup_insert_None, !not_elem_of_cons.
  rewrite lookup_empty. pose proof (not_elem_of_nil name).
  intuition congruence.
Qed.

(** The constructors of [torch.optim] return or raise; they do not loop. *)
Lemma require_total (h : gmap string val) (name : string)
    (p : val -> outcome bool) :
  (forall v, p v <> Diverge) -> optim.require h name p <> Diverge.
Proof.
  intros Hp. unfold optim.require.
  destruct (h !! name) as [v |]; [| discriminate].
  specialize (Hp v). destruct (p v) as [[] | e |]; cbn; congruence.
Qed.

Lemma as_number_total (v : val) : optim.as_number v <> Diverge.
Proof. destruct v; discriminate. Qed.

Lemma ge0_total (v : val) : optim.ge0 v <> Diverge.
Proof. destruct v; discriminate. Qed.

Lemma in_unit_closed_total (v : val) : optim.in_unit_closed v <> Diverge.
Proof. destruct v; discriminate. Qed.

Lemma beta_ok_total (second : bool) (v : val) :
  optim.beta_ok second v <> Diverge.
Proof.
  destruct v as [q | z | a b]; try discriminate.
  unfold optim.beta_ok; cbn.
  destruct second; [destruct b | destruct a]; discriminate.
Qed.

Lemma seq_total {A B : Type} (m : outcome A) (k : outcome B) :
  m <> Diverge -> k <> Diverge -> m ≫= (fun _ => k) <> Diverge.
Proof. destruct m; cbn; congruence. Qed.

Lemma validate_total (c : optim.family) (h : gmap string val) :
  optim.validate c h <> Diverge.
Proof.
  destruct c; unfold optim.validate;
    repeat apply seq_total;
    apply require_total;
    auto using ge0_total, in_unit_closed_total, beta_ok_total.
Qed.

Lemma bind_positional_total (names : list string) (args : list val) :
  optim.bind_positional names args <> Diverge.
Proof.
  revert names; induction args as [| v args IH]; intros names; cbn.
  - discriminate.
  - destruct names as [| n names]; [discriminate |].
    specialize (IH names).
    destruct (optim.bind_positional names args); cbn; congruence.
Qed.

Lemma construct_total (c : optim.family) (params : list optim.nn_Parameter)
    (args : list val) :
  optim.construct c params args <> Diverge.
Proof.
  unfold optim.construct.
  pose proof (bind_positional_total (optim.positional c) args) as Hb.
  destruct (optim.bind_positional (optim.positional c) args) as [h | e |];
    cbn; try congruence.
  pose proof (validate_total c h) as Hv.
  destruct (optim.validate c h) as [[] | e |]; cbn; try congruence.
  destruct params; discriminate.
Qed.

Lemma _get_optimizer_total (self : OptimizationConfig.t)
    (params : list optim.nn_Parameter) :
  OptimizationConfig._get_optimizer self params <> Diverge.
Proof.
  unfold OptimizationConfig._get_optimizer, getitem.
  destruct (OptimizationConfig.optim_fac !! _) as [c |].
  - rewrite bind_Ok_l. apply construct_total.
  - discriminate.
Qed.

Lemma adam_binding (lr b1 b2 : Q) :
  optim.bind_positional (optim.positional optim.Adam)
                        [Float lr; Float b1; Float b2]
  = Ok (<["lr" := Float lr]>
        (<["betas" := Float b1]> (<["eps" := Float b2]> ∅))).
Proof. reflexivity. Qed.

(** With a bare float bound to [betas], the constructor of the Adam family
    never returns an optimizer. *)
Lemma adam_family_never_constructed (self : OptimizationConfig.t)
    (params : list optim.nn_Parameter) :
  OptimizationConfig.optimizer self = "adam" \/
  OptimizationConfig.optimizer self = "adamw" ->
  raises (OptimizationConfig._get_optimizer self params).
Proof.
  intros Hname. unfold OptimizationConfig._get_optimizer, getitem.
  assert (exists c, OptimizationConfig.optim_fac
                      !! OptimizationConfig.optimizer self = Some c /\
                    optim.positional c = optim.positional optim.Adam /\
                    optim.validate c = optim.validate optim.Adam)
    as (c & -> & Hpos & Hval).
  { destruct Hname as [-> | ->]; eexists; (split; [reflexivity |]); done. }
  rewrite bind_Ok_l. unfold optim.construct.
  rewrite Hpos, Hval, adam_binding, bind_Ok_l.
  unfold optim.validate, optim.require.
  rewrite lookup_insert_eq.
  cbn [optim.ge0 optim.as_number mbind outcome_bind bind].
  destruct (Qle_bool 0 _); [| eexists; reflexivity].
  rewrite bind_Ok_l.
  replace (_ !! "eps") with (Some (Float (OptimizationConfig.beta2 self)))
    by reflexivity.
  cbn [optim.ge0 optim.as_number mbind outcome_bind bind].
  destruct (Qle_bool 0 _); [| eexists; reflexivity].
  rewrite bind_Ok_l.
  replace (_ !! "betas") with (Some (Float (OptimizationConfig.beta1 self)))
    by reflexivity.
  eexists; reflexivity.
Qed.

(** C5 (defect in the code).  The claim says that requesting ["adam"]
    yields an Adam optimizer with the configured learning rate and the
    beta coefficients (beta1, beta2).  [_get_optimizer] passes
    [learning_rate], [beta1] and [beta2] as three positional arguments, so
    the Adam constructor receives [beta1] alone as [betas] and [beta2] as
    [eps].  For learning rate 0.001, beta1 0.9 and beta2 0.999 the
    constructor subscripts the float it was given for [betas] and raises
    [TypeError]: no optimizer is returned. *)
Theorem C5_adam_receives_beta1_as_betas :
  (exists h,
      optim.bind_positional (optim.positional optim.Adam)
        [Float (OptimizationConfig.learning_rate adam_config);
         Float (OptimizationConfig.beta1 adam_config);
         Float (OptimizationConfig.beta2 adam_config)] = Ok h /\
      h !! "lr" = Some (Float (1 # 1000)) /\
      h !! "betas" = Some (Float (9 # 10)) /\
      h !! "eps" = Some (Float (999 # 1000))) /\
  OptimizationConfig._get_optimizer adam_config [0] = Raise TypeError.
Proof.
  split.
  - eexists. split; [apply adam_binding |]. repeat split.
  - reflexivity.
Qed.

Lemma truthy_nonempty (name : string) :
  name <> EmptyString -> truthy (Some name) = true.
Proof. destruct name; [congruence | reflexivity]. Qed.

Lemma recognised_scheduler_nonempty (name : string) :
  name ∈ ["reduceonplateau"; "warmupinvsqrt"] -> name <> EmptyString.
Proof. rewrite !elem_of_cons, elem_of_nil. intros [-> | [-> | []]]; done. Qed.

(** C6 (counterexample).  With the scheduler field set to the string
    ["none"], [configure] does not return a bundle: the string is truthy,
    so the scheduler table is consulted, and ["none"] is not a key of it. *)
Lemma C6_none_string_raises_KeyError :
  @OptimizationConfig.configure recording_schedulers
     (sgd_config (Some "none")) [0] = Raise KeyError.
Proof. reflexivity. Qed.

(** C6 (amended).  Whenever the optimizer is constructed: if the scheduler
    field is empty ([None] or the empty string), [configure] returns a
    bundle that holds the optimizer and has no ["lr_scheduler"] entry; if
    it names a recognised scheduler (["reduceonplateau"] or
    ["warmupinvsqrt"]) whose constructor returns, the bundle holds the
    optimizer and an ["lr_scheduler"] entry with that scheduler and the
    monitor string ["val_loss"]; the string ["none"] is not recognised and
    makes [configure] raise [KeyError]. *)
Theorem C6_configure_bundle `{Schedulers} (self : OptimizationConfig.t)
    (params : list optim.nn_Parameter) (o : optim.Optimizer) :
  OptimizationConfig._get_optimizer self params = Ok o ->
  (OptimizationConfig.scheduler self = None \/
   OptimizationConfig.scheduler self = Some EmptyString ->
   exists d,
     OptimizationConfig.configure self params = Ok d /\
     d !! "optimizer" = Some (OptimizationConfig.TheOptimizer o) /\
     d !! "lr_scheduler" = None) /\
  (forall name s,
     OptimizationConfig.scheduler self = Some name ->
     name ∈ ["reduceonplateau"; "warmupinvsqrt"] ->
     OptimizationConfig._get_scheduler self o = Ok s ->
     exists d inner,
       OptimizationConfig.configure self params = Ok d /\
       d !! "optimizer" = Some (OptimizationConfig.TheOptimizer o) /\
       d !! "lr_scheduler" = Some (OptimizationConfig.Dict inner) /\
       inner !! "scheduler" = Some (OptimizationConfig.TheScheduler s) /\
       inner !! "monitor" = Some (OptimizationConfig.Str "val_loss")) /\
  (OptimizationConfig.scheduler self = Some "none" ->
   OptimizationConfig.configure self params = Raise KeyError).
Proof.
  intros Hopt. unfold OptimizationConfig.configure. rewrite Hopt, bind_Ok_l.
  split; [| split].
  - intros Hempty.
    assert (truthy (OptimizationConfig.scheduler self) = false) as ->
      by (destruct Hempty as [-> | ->]; reflexivity).
    eexists. split; [reflexivity |]. split; reflexivity.
  - intros name s Hname Hin Hsched.
    rewrite Hname, truthy_nonempty
      by (apply recognised_scheduler_nonempty, Hin).
    rewrite Hsched, bind_Ok_l.
    do 2 eexists. split; [reflexivity |]. repeat split.
  - intros Hname. rewrite Hname.
    unfold OptimizationConfig._get_scheduler,
      OptimizationConfig.scheduler_key.
    rewrite Hname. reflexivity.
Qed.

Lemma C6_configure_bundle_witness :
  exists o d inner,
    OptimizationConfig._get_optimizer
      (sgd_config (Some "reduceonplateau")) [0] = Ok o /\
    @OptimizationConfig.configure recording_schedulers
      (sgd_config (Some "reduceonplateau")) [0] = Ok d /\
    d !! "optimizer" = Some (OptimizationConfig.TheOptimizer o) /\
    d !! "lr_scheduler" = Some (OptimizationConfig.Dict inner) /\
    inner !! "monitor" = Some (OptimizationConfig.Str "val_loss").
Proof.
  eexists.
  destruct (proj1 (proj2
    (@C6_configure_bundle recording_schedulers
       (sgd_config (Some "reduceonplateau")) [0] _ eq_refl))
    "reduceonplateau" _ eq_refl
    ltac:(apply list_elem_of_here) eq_refl)
    as (d & inner & Hd & Ho & Hs & _ & Hm).
  exists d, inner. repeat split; assumption.
Defined.

(** C7.  A configuration whose optimizer name is none of adadelta, adam,
    adamw and sgd, or whose scheduler name is non-empty and none of
    reduceonplateau and warmupinvsqrt, makes [configure] raise an error:
    no bundle is returned and nothing is substituted for the unknown
    name. *)
Theorem C7_unknown_names_raise `{Schedulers} (self : OptimizationConfig.t)
    (params : list optim.nn_Parameter) :
  OptimizationConfig.optimizer self ∉ ["adadelta"; "adam"; "adamw"; "sgd"] \/
  (exists name,
     OptimizationConfig.scheduler self = Some name /\
     name <> EmptyString /\
     name ∉ ["reduceonplateau"; "warmupinvsqrt"]) ->
  raises (OptimizationConfig.configure self params).
Proof.
  intros [Hopt | (name & Hname & Hne & Hout)];
    unfold OptimizationConfig.configure.
  - unfold OptimizationConfig._get_optimizer, getitem.
    apply optim_fac_None in Hopt. rewrite Hopt.
    exists KeyError. reflexivity.
  - pose proof (_get_optimizer_total self params) as Htot.
    destruct (OptimizationConfig._get_optimizer self params) as [o | e |];
      [| exists e; reflexivity | congruence].
    rewrite bind_Ok_l, Hname, truthy_nonempty by exact Hne.
    unfold OptimizationConfig._get_scheduler,
      OptimizationConfig.scheduler_key, getitem.
    rewrite Hname. cbn [default from_option id].
    apply scheduler_fac_None in Hout. rewrite Hout.
    exists KeyError. reflexivity.
Qed.

Lemma C7_unknown_names_raise_witness :
  raises (@OptimizationConfig.configure recording_schedulers
            (OptimizationConfig.mk "rmsprop" (1 # 1000) (9 # 10)
               (999 # 1000) (Some "cosine") (1 # 10) 10 0 100) [0]).
Proof.
  apply (@C7_unknown_names_raise recording_schedulers).
  left. rewrite !not_elem_of_cons. repeat split; try discriminate.
  apply not_elem_of_nil.
Defined.

(** C10.  [configure_optimizers], on the encoder and on the classifier
    alike, calls [configure] without the parameters it requires, so the
    call raises [TypeError] and never yields a bundle. *)
Theorem C10_configure_optimizers_raises_TypeError
    {R : Type} `{Scalar R} `{Schedulers}
    (enc : UDTubeEncoder.t R) (clf : UDTubeClassifier.t R) :
  UDTubeEncoder.configure_optimizers enc = Raise TypeError /\
  UDTubeClassifier.configure_optimizers clf = Raise TypeError.
Proof. split; reflexivity. Qed.

(** ** The encoder wrapper *)

(** [forward] trims the batch and then fails on [self.device], before the
    encoder is called. *)
Lemma forward_after_trim {R : Type} `{Scalar R}
    (self : UDTubeEncoder.t R) (batch : Batch) :
  UDTubeEncoder.forward self batch =
  (fst (UDTubeEncoder.trim self batch), snd (UDTubeEncoder.trim self batch),
   Raise AttributeError).
Proof.
  unfold UDTubeEncoder.forward.
  destruct (UDTubeEncoder.trim self batch) as [log batch']. reflexivity.
Qed.

(** The slice taken by [trim] is along the sentence axis: the number of
    subword positions of the token ids and of the attention mask is never
    changed, and the sentences kept are kept whole. *)
Lemma trim_keeps_every_position {R : Type} `{Scalar R}
    (self : UDTubeEncoder.t R) (batch : Batch) :
  let batch' := snd (UDTubeEncoder.trim self batch) in
  cols (input_ids (tokens batch')) = cols (input_ids (tokens batch)) /\
  cols (attention_mask (tokens batch')) =
    cols (attention_mask (tokens batch)) /\
  rows (input_ids (tokens batch')) `sublist_of` rows (input_ids (tokens batch)).
Proof.
  unfold UDTubeEncoder.trim.
  destruct (_ <? _)%Z; cbn; repeat split; try reflexivity.
  unfold slice_to. destruct (0 <=? _)%Z; apply sublist_take.
Qed.

(** C1 (defect in the code).  The claim says that a batch longer than the
    encoder's maximum is cut to its first max-length positions in every
    sentence.  [forward] slices the leading axis of the two tensors, which
    is the sentence axis.  For an encoder supporting two positions and a
    batch of one sentence of three subwords, the warning is logged and the
    batch is left as it was, with all three positions; for a batch of three such sentences the third sentence is
    dropped and the two that remain keep all three positions. *)
Theorem C1_trim_cuts_sentences_not_positions :
  UDTubeEncoder.trim two_position_encoder one_sentence_batch =
    ([Warning "truncating sequence from %d to %d" [3; 2]%Z],
     one_sentence_batch) /\
  shape2 (input_ids (tokens
            (snd (UDTubeEncoder.trim two_position_encoder
                    one_sentence_batch)))) = (1, 3) /\
  rows (input_ids (tokens
          (snd (UDTubeEncoder.trim two_position_encoder
                  three_sentence_batch)))) =
    [[11; 12; 13]; [21; 22; 23]]%Z /\
  shape2 (attention_mask (tokens
            (snd (UDTubeEncoder.trim two_position_encoder
                    three_sentence_batch)))) = (2, 3).
Proof. repeat split. Qed.

(** ** Lists as tensors *)

Lemma map_nth_seq {A : Type} (d : A) (l : list A) (n : nat) :
  length l = n -> map (fun i => nth i l d) (seq 0 n) = l.
Proof.
  intros <-. apply list_eq; intros i.
  rewrite list_lookup_fmap.
  destruct (decide (i < length l)) as [Hlt | Hge].
  - rewrite lookup_seq_lt by exact Hlt. cbn.
    destruct (lookup_lt_is_Some_2 l i Hlt) as [x Hx].
    rewrite Hx. f_equal. apply nth_lookup_Some with (d := d), Hx.
  - rewrite lookup_seq_ge by lia. cbn. symmetry.
    apply lookup_ge_None. lia.
Qed.

Section TensorFacts.
Context {R : Type} `{Scalar R}.

Lemma at_nil (j : nat) : at_ j [] = zero.
Proof. destruct j; reflexivity. Qed.

Lemma at_column (i j : nat) (m : list (list R)) :
  at_ i (column j m) = at_ j (nth i m []).
Proof.
  unfold column, at_ at 1. rewrite <- (at_nil j). apply map_nth.
Qed.

Lemma length_column (j : nat) (m : list (list R)) :
  length (column j m) = length m.
Proof. apply length_map. Qed.

Lemma length_transpose_rows (width : nat) (m : list (list R)) :
  length (transpose_rows width m) = width.
Proof. unfold transpose_rows. rewrite length_map. apply length_seq. Qed.

Lemma wf_rows_nth (width i : nat) (m : list (list R)) :
  wf_rows width m -> i < length m -> length (nth i m []) = width.
Proof.
  intros Hwf Hi. destruct (lookup_lt_is_Some_2 m i Hi) as [r Hr].
  rewrite (nth_lookup_Some m i [] r Hr).
  exact (Forall_lookup_1 _ _ _ _ Hwf Hr).
Qed.

(** Transposing twice gives the matrix back. *)
Lemma transpose_rows_involutive (n width : nat) (m : list (list R)) :
  length m = n -> wf_rows width m ->
  transpose_rows n (transpose_rows width m) = m.
Proof.
  intros Hn Hwf.
  rewrite <- (map_nth_seq [] m n Hn) at 2.
  unfold transpose_rows at 1. apply map_ext_in. intros i Hi.
  apply in_seq in Hi.
  unfold column at 1, transpose_rows. rewrite map_map.
  rewrite <- (map_nth_seq zero (nth i m []) width)
    by (apply wf_rows_nth; [exact Hwf | lia]).
  apply map_ext. intros j. apply at_column.
Qed.

Lemma permute021_involutive (t : Tensor3 R) :
  wf3 t -> permute021 (permute021 t) = t.
Proof.
  destruct t as [ms n1 n2]. unfold wf3, permute021; cbn. intros Hwf.
  f_equal. rewrite map_map. rewrite <- (map_id ms) at 2.
  apply map_ext_in. intros m Hm.
  apply list_elem_of_In in Hm.
  destruct (proj1 (Forall_forall _ _) Hwf m Hm) as [Hlen Hrows].
  apply transpose_rows_involutive; assumption.
Qed.

Lemma shape3_permute021 (t : Tensor3 R) :
  shape3 (permute021 t) = (length (mats t), dim2 t, dim1 t).
Proof. unfold shape3, permute021; cbn. rewrite length_map. reflexivity. Qed.

End TensorFacts.

(** ** The classification heads *)

Section Classifier.
Context {R : Type} `{Scalar R} `{nn.Init R} `{Schedulers}.

(** No head is ever built: the read of [self.hidden_size] fails before the
    layer is initialised, whatever the generator and the size asked for. *)
Lemma make_head_raises (g : nn.Generator) (out_size : nat) :
  UDTubeClassifier._make_head g out_size = Raise AttributeError.
Proof. reflexivity. Qed.

(** The outcome of [__init__]: the first enabled head raises; with no head
    enabled the instance has four [None] heads and the generator is left
    as it was. *)
Lemma init_outcome (use_upos use_xpos use_lemma use_feats : bool)
    (upos_out_size xpos_out_size lemma_out_size feats_out_size : nat)
    (kwargs : OptimizationConfig.t) (g : nn.Generator) :
  UDTubeClassifier.__init__ use_upos use_xpos use_lemma use_feats
    upos_out_size xpos_out_size lemma_out_size feats_out_size kwargs g =
  if use_upos || use_xpos || use_lemma || use_feats
  then Raise AttributeError
  else Ok (UDTubeClassifier.mk None None None None kwargs, g).
Proof. destruct use_upos, use_xpos, use_lemma, use_feats; reflexivity. Qed.

(** A slot of the bundle is filled exactly when the head is present. *)
Lemma logits_if_slot (head : option (nn.Linear R)) (x : Tensor3 R)
    (o : option (Tensor3 R)) :
  UDTubeClassifier.logits_if (UDTubeClassifier.is_not_None head) head x
    = Ok o ->
  match head with
  | Some h => exists y, nn.Sequential h x = Ok y /\ o = Some (permute021 y)
  | None => o = None
  end.
Proof.
  unfold UDTubeClassifier.logits_if, UDTubeClassifier.call_head.
  destruct head as [h |]; cbn.
  - destruct (nn.Sequential h x) as [y | e |]; cbn; intros [= <-].
    eexists; split; reflexivity.
  - intros [= <-]. reflexivity.
Qed.

Lemma forward_slots (self : UDTubeClassifier.t R) (x : Tensor3 R)
    (out : Logits R) (k : task) :
  UDTubeClassifier.forward self x = Ok out ->
  match head_of self k with
  | Some h =>
      exists y, nn.Sequential h x = Ok y /\ slot_of out k = Some (permute021 y)
  | None => slot_of out k = None
  end.
Proof.
  unfold UDTubeClassifier.forward.
  intros Hf.
  apply bind_Ok in Hf as (u & Hu & Hf).
  apply bind_Ok in Hf as (xp & Hx & Hf).
  apply bind_Ok in Hf as (l & Hl & Hf).
  apply bind_Ok in Hf as (f & Hfe & Hf).
  injection Hf as <-.
  destruct k; cbn; apply logits_if_slot; assumption.
Qed.

(** A classifier that [__init__] returned has no head. *)
Lemma init_returns_no_head
    (use_upos use_xpos use_lemma use_feats : bool)
    (upos_out_size xpos_out_size lemma_out_size feats_out_size : nat)
    (kwargs : OptimizationConfig.t) (g g' : nn.Generator)
    (self : UDTubeClassifier.t R) (k : task) :
  UDTubeClassifier.__init__ use_upos use_xpos use_lemma use_feats
    upos_out_size xpos_out_size lemma_out_size feats_out_size kwargs g
    = Ok (self, g') ->
  head_of self k = None.
Proof.
  rewrite init_outcome.
  destruct (_ || _); [discriminate |]. intros [= <- _].
  destruct k; reflexivity.
Qed.

End Classifier.

(** The constructor call [UDTubeClassifier(use_upos=True, use_xpos=False,
    use_lemma=False, use_feats=False, upos_out_size=3)] raises, and the
    generator is not consulted. *)
Example upos_classifier_raises :
  @UDTubeClassifier.__init__ Q ones_init true false false false 3 2 2 2
    (sgd_config None) 0 = Raise AttributeError.
Proof. reflexivity. Qed.

(** With the four flags off the constructor returns, and the forward pass
    of the classifier it returns fills no slot. *)
Example headless_classifier_forward :
  exists self,
    @UDTubeClassifier.__init__ Q ones_init false false false false 3 2 2 2
      (sgd_config None) 0 = Ok (self, 0) /\
    UDTubeClassifier.forward self two_word_embeddings =
      Ok (mkLogits None None None None).
Proof. eexists; split; reflexivity. Qed.

(** C8 (defect in the code).  The claim says that the slot of a head
    enabled at construction holds a tensor and the slot of a disabled head
    is [None].  [__init__] builds an enabled head with [_make_head], which
    reads [self.hidden_size]; [UDTubeEncoder] defines that property and
    [UDTubeClassifier] does not, so [__init__] raises [AttributeError] as
    soon as one of the four flags is set.  The only classifier it returns
    is the one without heads, and for every input the four slots of its
    bundle are [None]: no slot is ever present. *)
Theorem C8_enabled_head_raises_AttributeError
    {R : Type} `{Scalar R} `{nn.Init R}
    (use_upos use_xpos use_lemma use_feats : bool)
    (upos_out_size xpos_out_size lemma_out_size feats_out_size : nat)
    (kwargs : OptimizationConfig.t) (g : nn.Generator)
    (embeddings : Tensor3 R) :
  UDTubeClassifier.__init__ use_upos use_xpos use_lemma use_feats
    upos_out_size xpos_out_size lemma_out_size feats_out_size kwargs g =
  (if use_upos || use_xpos || use_lemma || use_feats
   then Raise AttributeError
   else Ok (UDTubeClassifier.mk None None None None kwargs, g)) /\
  UDTubeClassifier.forward
    (UDTubeClassifier.mk None None None None kwargs) embeddings =
  Ok (mkLogits None None None None).
Proof. split; [apply init_outcome | reflexivity]. Qed.

(** C9 (defect in the code).  The claim says that the bundle stores, for
    every enabled head, a tensor of shape N x C x L that is the head's
    output with its last two axes exchanged.  This is the defect of C8
    seen from the head: [_make_head] raises [AttributeError] on
    [self.hidden_size] before it builds the linear layer, for every
    generator state and every class count, so enabling any one of the four
    heads makes [__init__] raise, and no bundle stores a head's output:
    in every bundle that the forward pass of a constructed classifier
    returns, every slot is [None]. *)
Theorem C9_no_head_output_is_ever_stored
    {R : Type} `{Scalar R} `{nn.Init R}
    (upos_out_size xpos_out_size lemma_out_size feats_out_size : nat)
    (kwargs : OptimizationConfig.t) (g : nn.Generator) :
  let init (u x l f : bool) :=
    UDTubeClassifier.__init__ u x l f
      upos_out_size xpos_out_size lemma_out_size feats_out_size kwargs g in
  UDTubeClassifier._make_head g upos_out_size = Raise AttributeError /\
  init true false false false = Raise AttributeError /\
  init false true false false = Raise AttributeError /\
  init false false true false = Raise AttributeError /\
  init false false false true = Raise AttributeError /\
  init true true true true = Raise AttributeError /\
  (forall u x l f self g' embeddings out k,
     init u x l f = Ok (self, g') ->
     UDTubeClassifier.forward self embeddings = Ok out ->
     slot_of out k = None).
Proof.
  intros init. split; [apply make_head_raises |].
  do 5 (split; [reflexivity |]).
  intros u x l f self g' embeddings out k Hinit Hfwd.
  pose proof (forward_slots self embeddings out k Hfwd) as Hslot.
  rewrite (init_returns_no_head _ _ _ _ _ _ _ _ _ _ _ _ k Hinit) in Hslot.
  exact Hslot.
Qed.

(** ** The layout of word ids *)

Lemma list_sum_cons (n : nat) (rest : list nat) :
  list_sum (n :: rest) = n + list_sum rest.
Proof. reflexivity. Qed.

Lemma length_layout_from (w : nat) (lens : list nat) (pad : nat) :
  length (layout_from w lens pad) = list_sum lens + pad.
Proof.
  revert w; induction lens as [| n rest IH]; intros w;
    cbn [layout_from].
  - apply length_replicate.
  - rewrite length_app, length_replicate, IH, list_sum_cons. lia.
Qed.

Lemma layout_from_app (w : nat) (done todo : list nat) (pad : nat) :
  layout_from w (done ++ todo) pad =
  layout_from w done 0 ++ layout_from (w + length done) todo pad.
Proof.
  revert w; induction done as [| n rest IH]; intros w; cbn.
  - rewrite Nat.add_0_r. reflexivity.
  - rewrite IH, <- app_assoc. do 3 f_equal. lia.
Qed.

(** The labels of a block of words lie in the range of those words. *)
Lemma layout_from_bounds (w : nat) (lens : list nat) (pad p v : nat) :
  layout_from w lens pad !! p = Some (Some v) ->
  w <= v < w + length lens.
Proof.
  revert w p; induction lens as [| n rest IH]; intros w p; cbn.
  - intros Hp. apply lookup_replicate in Hp as [[=] _].
  - intros Hp. apply lookup_app_Some in Hp as [Hp | [_ Hp]].
    + apply lookup_replicate in Hp as [[= ->] _]. lia.
    + apply IH in Hp. lia.
Qed.

(** In a layout, the word that follows the words [done] occupies the
    positions right after theirs. *)
Lemma layout_occupies (done rest : list nat) (n pad : nat) :
  0 < n ->
  occupies (layout (done ++ n :: rest) pad) (length done)
           (list_sum done) (list_sum done + n).
Proof.
  intros Hn. unfold occupies, layout.
  rewrite length_layout_from, list_sum_app, list_sum_cons.
  split; [lia |]. split; [lia |].
  intros p. rewrite layout_from_app. cbn [layout_from Nat.add].
  pose proof (length_layout_from 0 done 0) as Hlen.
  rewrite Nat.add_0_r in Hlen.
  split.
  - intros Hp. apply lookup_app_Some in Hp as [Hp | [Hge Hp]].
    + apply layout_from_bounds in Hp. lia.
    + rewrite Hlen in Hge, Hp.
      apply lookup_app_Some in Hp as [Hp | [Hge' Hp]].
      * apply lookup_replicate in Hp. lia.
      * apply layout_from_bounds in Hp. lia.
  - intros [Hs He]. rewrite lookup_app_r by lia. rewrite Hlen.
    rewrite lookup_app_l by (rewrite length_replicate; lia).
    apply lookup_replicate. split; [reflexivity | lia].
Qed.

(** After the last word comes padding or the end of the sentence. *)
Lemma layout_from_after (w : nat) (lens : list nat) (pad : nat) :
  0 < pad -> layout_from w lens pad !! list_sum lens = Some None.
Proof.
  intros Hpad. revert w; induction lens as [| n rest IH]; intros w;
    cbn [layout_from]; rewrite ?list_sum_cons.
  - apply lookup_replicate. split; [reflexivity | exact Hpad].
  - rewrite lookup_app_r by (rewrite length_replicate; lia).
    rewrite length_replicate.
    replace (n + list_sum rest - n) with (list_sum rest) by lia.
    apply IH.
Qed.

Lemma layout_after_words (lens : list nat) (pad : nat) :
  let ids := layout lens pad in
  list_sum lens < length ids -> ids !! list_sum lens = Some None.
Proof.
  cbn. unfold layout. rewrite length_layout_from. intros Hpad.
  apply layout_from_after. lia.
Qed.

Lemma occupies_unique (ids : list (option nat)) (w s e s' e' : nat) :
  occupies ids w s e -> occupies ids w s' e' -> s = s' /\ e = e'.
Proof.
  intros (Hlt & _ & Hpos) (Hlt' & _ & Hpos').
  assert (forall p, s <= p < e <-> s' <= p < e') as Hsame
    by (intros p; rewrite <- Hpos, <- Hpos'; reflexivity).
  pose proof (proj1 (Hsame s)). pose proof (proj2 (Hsame s')).
  pose proof (proj1 (Hsame (e - 1))). pose proof (proj2 (Hsame (e' - 1))).
  lia.
Qed.

Lemma spans_from_lookup (s : nat) (done rest : list nat) (n : nat) :
  spans_from s (done ++ n :: rest) !! length done =
  Some (s + list_sum done, s + list_sum done + n).
Proof.
  revert s; induction done as [| m done IH]; intros s;
    cbn [app spans_from length]; rewrite ?list_sum_cons.
  - cbn. rewrite Nat.add_0_r. reflexivity.
  - change (spans_from (s + m) (done ++ n :: rest) !! length done =
            Some (s + (m + list_sum done), s + (m + list_sum done) + n)).
    rewrite IH. do 2 f_equal; lia.
Qed.

Lemma length_spans_from (s : nat) (lens : list nat) :
  length (spans_from s lens) = length lens.
Proof.
  revert s; induction lens as [| n rest IH]; intros s; cbn;
    [reflexivity | rewrite IH; reflexivity].
Qed.

(** A word that occupies a span of a laid-out sentence is one of its
    words, and the span is the one computed from the subword counts. *)
Lemma occupies_layout (lens : list nat) (pad w s e : nat) :
  Forall (fun n => 0 < n) lens ->
  occupies (layout lens pad) w s e ->
  spans_from 0 lens !! w = Some (s, e).
Proof.
  intros Hpos Hocc.
  assert (w < length lens) as Hw.
  { destruct Hocc as (Hlt & _ & Hp).
    pose proof (proj2 (Hp s) ltac:(lia)) as Hs.
    apply layout_from_bounds in Hs. lia. }
  destruct (lookup_lt_is_Some_2 lens w Hw) as [n Hn].
  pose proof (take_drop_middle lens w n Hn) as Hsplit.
  assert (length (take w lens) = w) as Htake
    by (rewrite length_take; lia).
  assert (0 < n) as Hn0
    by (exact (Forall_lookup_1 _ _ _ _ Hpos Hn)).
  pose proof (layout_occupies (take w lens) (drop (S w) lens) n pad Hn0)
    as Hocc'.
  rewrite Hsplit, Htake in Hocc'.
  destruct (occupies_unique _ _ _ _ _ _ Hocc Hocc') as [-> ->].
  pose proof (spans_from_lookup 0 (take w lens) (drop (S w) lens) n)
    as Hspan.
  rewrite Hsplit, Htake in Hspan. exact Hspan.
Qed.

(** ** The span-collecting loop *)

Lemma length_le_list_sum (lens : list nat) :
  Forall (fun n => 0 < n) lens -> length lens <= list_sum lens.
Proof.
  induction 1 as [| n rest Hn _ IH]; [reflexivity |].
  rewrite list_sum_cons. cbn [length]. lia.
Qed.

(** A run that ends keeps its result when given more fuel. *)
Lemma collect_indices_more_fuel (enc : Encoding) (fuel fuel' i : nat)
    (acc : list (nat * nat)) :
  UDTubeEncoder.collect_indices fuel enc i acc <> Diverge ->
  fuel <= fuel' ->
  UDTubeEncoder.collect_indices fuel' enc i acc =
  UDTubeEncoder.collect_indices fuel enc i acc.
Proof.
  revert fuel' i acc; induction fuel as [| fuel IH]; intros fuel' i acc.
  - cbn. congruence.
  - intros Hend Hle. destruct fuel' as [| fuel']; [lia |].
    cbn [UDTubeEncoder.collect_indices] in *.
    destruct (i <? length (word_ids enc)); [| reflexivity].
    destruct (word_ids enc !! i) as [[w |] |]; try reflexivity.
    destruct (word_to_tokens enc w) as [[s e] |]; [| reflexivity].
    apply IH; [exact Hend | lia].
Qed.

(** On a laid-out sentence the loop gathers the spans of the words still
    to visit, one word per iteration. *)
Lemma collect_indices_layout (enc : Encoding) (lens : list nat) (pad : nat) :
  resolves_spans enc ->
  Forall (fun n => 0 < n) lens ->
  word_ids enc = layout lens pad ->
  forall todo done acc fuel,
    lens = done ++ todo ->
    length todo < fuel ->
    UDTubeEncoder.collect_indices fuel enc (list_sum done) acc =
    Ok (acc ++ spans_from (list_sum done) todo).
Proof.
  intros Hres Hpos Hids.
  induction todo as [| n rest IH]; intros done acc fuel Hsplit Hfuel;
    (destruct fuel as [| fuel]; [cbn in Hfuel; lia |]);
    cbn [UDTubeEncoder.collect_indices spans_from].
  - rewrite app_nil_r in Hsplit. subst done. rewrite app_nil_r.
    destruct (Nat.ltb_spec (list_sum lens) (length (word_ids enc)))
      as [Hlt | Hge]; [| reflexivity].
    rewrite Hids in Hlt |- *.
    rewrite (layout_after_words lens pad Hlt). reflexivity.
  - assert (0 < n) as Hn.
    { rewrite Hsplit in Hpos. apply Forall_app in Hpos as [_ Hpos].
      apply Forall_cons in Hpos as [Hn _]. exact Hn. }
    pose proof (layout_occupies done rest n pad Hn) as Hocc.
    rewrite <- Hsplit, <- Hids in Hocc.
    pose proof (Hres _ _ _ Hocc) as Hspan.
    destruct Hocc as (Hlt & Hle & Hlabel).
    rewrite (proj2 (Nat.ltb_lt _ _)) by lia.
    rewrite (proj2 (Hlabel (list_sum done))) by lia.
    rewrite Hspan.
    replace (list_sum done + n) with (list_sum (done ++ [n]))
      by (rewrite list_sum_app; cbn; lia).
    rewrite (IH (done ++ [n]) (acc ++ [(list_sum done, list_sum (done ++ [n]))])
                fuel).
    + rewrite <- app_assoc. reflexivity.
    + rewrite <- app_assoc. exact Hsplit.
    + cbn in Hfuel. lia.
Qed.

Lemma collect_indices_tokenized (enc : Encoding) (lens : list nat) :
  tokenized_as enc lens ->
  UDTubeEncoder.collect_indices (UDTubeEncoder.loop_fuel enc) enc 0 [] =
  Ok (spans_from 0 lens).
Proof.
  intros (Hres & Hpos & pad & Hids).
  apply (collect_indices_layout enc lens pad Hres Hpos Hids lens [] []).
  - reflexivity.
  - unfold UDTubeEncoder.loop_fuel. rewrite Hids.
    unfold layout. rewrite length_layout_from.
    pose proof (length_le_list_sum lens Hpos). lia.
Qed.

(** A sentence whose word-id map starts with padding has no span. *)
Lemma collect_indices_padding_first (enc : Encoding) :
  word_ids enc !! 0 = Some None ->
  UDTubeEncoder.collect_indices (UDTubeEncoder.loop_fuel enc) enc 0 [] =
  Ok [].
Proof.
  intros Hpad. unfold UDTubeEncoder.loop_fuel.
  cbn [UDTubeEncoder.collect_indices]. rewrite Hpad.
  destruct (_ <? _); reflexivity.
Qed.

(** ** The fuel of the loop is enough

    A run of the loop that is still going after one test per subword
    position has visited some cursor twice, so it goes on forever: running
    out of the fuel given by [loop_fuel] means that the loop does not
    terminate. *)

Lemma repeated_element {A : Type} `{EqDecision A} (l : list A) :
  ~ NoDup l ->
  exists i j x, i < j /\ l !! i = Some x /\ l !! j = Some x.
Proof.
  induction l as [| x l IH]; intros Hdup.
  - destruct Hdup. constructor.
  - destruct (decide (x ∈ l)) as [Hin | Hout].
    + apply list_elem_of_lookup in Hin as [j Hj].
      exists 0, (S j), x. repeat split; [lia | exact Hj].
    + destruct IH as (i & j & y & Hij & Hi & Hj).
      { intros Hnd. apply Hdup. constructor; assumption. }
      exists (S i), (S j), y. repeat split; [lia | exact Hi | exact Hj].
Qed.

Lemma pigeonhole (f : nat -> nat) (n : nat) :
  (forall k, k <= n -> f k < n) ->
  exists a b, a < b <= n /\ f a = f b.
Proof.
  intros Hf.
  destruct (repeated_element (map f (seq 0 (S n)))) as (i & j & x & Hij & Hi & Hj).
  - intros Hnd.
    assert (length (map f (seq 0 (S n))) <= length (seq 0 n)) as Hlen.
    { apply NoDup_incl_length; [apply NoDup_ListNoDup, Hnd |].
      intros y Hy. apply in_map_iff in Hy as (k & <- & Hk).
      apply in_seq in Hk. apply in_seq. specialize (Hf k). lia. }
    rewrite length_map, !length_seq in Hlen. lia.
  - rewrite list_lookup_fmap in Hi, Hj.
    destruct (seq 0 (S n) !! i) as [a |] eqn:Ha; [| discriminate].
    destruct (seq 0 (S n) !! j) as [b |] eqn:Hb; [| discriminate].
    apply lookup_seq in Ha as [-> Hi']. apply lookup_seq in Hb as [-> Hj'].
    cbn in Hi, Hj. exists i, j. split; [lia | congruence].
Qed.

Lemma cursor_after_add (enc : Encoding) (a k i : nat) :
  cursor_after enc (a + k) i =
  match cursor_after enc a i with
  | Some j => cursor_after enc k j
  | None => None
  end.
Proof.
  revert i; induction a as [| a IH]; intros i; cbn; [reflexivity |].
  destruct (next_cursor enc i); [apply IH | reflexivity].
Qed.

(** The loop runs out of fuel exactly when it gets through that many
    iterations. *)
Lemma collect_indices_Diverge (enc : Encoding) (fuel i : nat)
    (acc : list (nat * nat)) :
  UDTubeEncoder.collect_indices fuel enc i acc = Diverge <->
  is_Some (cursor_after enc fuel i).
Proof.
  revert i acc; induction fuel as [| fuel IH]; intros i acc.
  - cbn. split; [eexists; reflexivity | reflexivity].
  - cbn [UDTubeEncoder.collect_indices cursor_after]. unfold next_cursor.
    destruct (i <? length (word_ids enc)).
    + destruct (word_ids enc !! i) as [[w |] |].
      * destruct (word_to_tokens enc w) as [[s e] |]; [apply IH |].
        split; [discriminate | intros [? [=]]].
      * split; [discriminate | intros [? [=]]].
      * split; [discriminate | intros [? [=]]].
    + split; [discriminate | intros [? [=]]].
Qed.

Lemma next_cursor_in_range (enc : Encoding) (i j : nat) :
  next_cursor enc i = Some j -> i < length (word_ids enc).
Proof.
  unfold next_cursor.
  destruct (Nat.ltb_spec i (length (word_ids enc))); [auto | discriminate].
Qed.

Lemma cursor_after_prefix (enc : Encoding) (a k i : nat) :
  is_Some (cursor_after enc (a + k) i) -> is_Some (cursor_after enc a i).
Proof.
  rewrite cursor_after_add.
  destruct (cursor_after enc a i); [eauto | intros [? [=]]].
Qed.

(** A run that gets through one iteration per subword position and one
    more gets through any number of iterations. *)
Lemma cursor_after_forever (enc : Encoding) (i : nat) :
  is_Some (cursor_after enc (S (length (word_ids enc))) i) ->
  forall n, is_Some (cursor_after enc n i).
Proof.
  intros Hlong.
  set (len := length (word_ids enc)) in *.
  assert (forall k, k <= S len -> is_Some (cursor_after enc k i)) as Hpre.
  { intros k Hk. apply (cursor_after_prefix enc k (S len - k)).
    replace (k + (S len - k)) with (S len) by lia. exact Hlong. }
  set (c := fun k => default 0 (cursor_after enc k i)).
  assert (forall k, k <= S len -> cursor_after enc k i = Some (c k)) as Hc.
  { intros k Hk. unfold c. destruct (Hpre k Hk) as [j ->]. reflexivity. }
  destruct (pigeonhole c len) as (a & b & Hab & Hsame).
  { intros k Hk.
    pose proof (Hc (S k) ltac:(lia)) as Hnext.
    replace (S k) with (k + 1) in Hnext by lia.
    rewrite cursor_after_add, (Hc k) in Hnext by lia.
    cbn in Hnext.
    destruct (next_cursor enc (c k)) as [j |] eqn:Hj; [| discriminate].
    exact (next_cursor_in_range enc _ _ Hj). }
  intros n. induction n as [n IH] using lt_wf_ind.
  destruct (le_lt_dec n (S len)) as [Hle | Hgt]; [apply Hpre, Hle |].
  pose proof (IH (a + (n - b)) ltac:(lia)) as Hrec.
  rewrite cursor_after_add, (Hc a) in Hrec by lia.
  replace n with (b + (n - b)) by lia.
  rewrite cursor_after_add, (Hc b) by lia.
  rewrite <- Hsame. exact Hrec.
Qed.

Theorem loop_fuel_is_enough (enc : Encoding) :
  UDTubeEncoder.collect_indices (UDTubeEncoder.loop_fuel enc) enc 0 []
    = Diverge ->
  forall fuel acc, UDTubeEncoder.collect_indices fuel enc 0 acc = Diverge.
Proof.
  intros Hout fuel acc. apply collect_indices_Diverge.
  apply cursor_after_forever.
  apply (collect_indices_Diverge enc _ 0 []). exact Hout.
Qed.

(** ** The embedding aggregator *)

(** The first element that raises decides the outcome. *)
Lemma mapM_Raise {A B : Type} (f : A -> outcome B) (l : list A)
    (b : nat) (x : A) (e : exn) :
  l !! b = Some x -> f x = Raise e ->
  Forall (fun y => returns (f y)) (take b l) ->
  mapM f l = Raise e.
Proof.
  revert b; induction l as [| y l IH]; intros b Hb Hx Hbefore;
    [discriminate |].
  destruct b as [| b]; cbn [mapM].
  - injection Hb as ->. rewrite Hx. reflexivity.
  - cbn in Hb, Hbefore. apply Forall_cons in Hbefore as [[z Hz] Hbefore].
    rewrite Hz, bind_Ok_l.
    change (mapM f l ≫= (fun k => Ok (z :: k)) = Raise e).
    rewrite (IH b Hb Hx Hbefore). reflexivity.
Qed.

Lemma mapM_not_Ok {A B : Type} (f : A -> outcome B) (l : list A)
    (b : nat) (x : A) :
  l !! b = Some x -> ~ returns (f x) -> ~ returns (mapM f l).
Proof.
  revert b; induction l as [| y l IH]; intros b Hb Hx; [discriminate |].
  cbn [mapM]. intros [ys Hys].
  apply bind_Ok in Hys as (z & Hz & Hys).
  change (mapM f l ≫= (fun k => Ok (z :: k)) = Ok ys) in Hys.
  apply bind_Ok in Hys as (zs & Hzs & _).
  destruct b as [| b].
  - injection Hb as ->. apply Hx. eexists; exact Hz.
  - apply (IH b Hb Hx). eexists; exact Hzs.
Qed.

Lemma builtin_max_max_list (x : nat) (xs : list nat) :
  builtin_max (x :: xs) = Ok (max_list (x :: xs)).
Proof.
  cbn. f_equal. induction xs as [| y ys IH]; cbn; [lia |].
  rewrite IH. cbn. lia.
Qed.

Section Aggregator.
Context {R : Type} `{Scalar R}.

Lemma length_mean0 (t : Tensor2 R) : length (mean0 t) = cols t.
Proof. unfold mean0. rewrite length_map. apply length_seq. Qed.

Lemma stack1_rows (vs : list (list R)) (n : nat) :
  vs <> [] -> wf_rows n vs -> stack1 vs = Ok (mkTensor2 vs n).
Proof.
  destruct vs as [| v rest]; [congruence |]. intros _ Hwf.
  apply Forall_cons in Hwf as [Hv Hrest]. unfold stack1.
  rewrite (proj2 (forallb_forall _ _)).
  - rewrite Hv. reflexivity.
  - intros u Hu. apply Nat.eqb_eq. rewrite Hv.
    apply list_elem_of_In in Hu.
    exact (proj1 (Forall_forall _ _) Hrest u Hu).
Qed.

Lemma wf_span_means (spans : list (nat * nat)) (emb : Tensor2 R) :
  wf2 (span_means spans emb).
Proof.
  unfold wf2, wf_rows, span_means; cbn.
  apply Forall_fmap, Forall_forall. intros [s e] _.
  apply (length_mean0 (slice2 s e emb)).
Qed.

Lemma group_sentence_tokenized (enc : Encoding) (lens : list nat)
    (emb : Tensor2 R) :
  tokenized_as enc lens -> lens <> [] ->
  UDTubeEncoder.group_sentence enc emb =
  Ok (span_means (spans_from 0 lens) emb).
Proof.
  intros Htok Hne. unfold UDTubeEncoder.group_sentence.
  rewrite (collect_indices_tokenized enc lens Htok), bind_Ok_l.
  apply stack1_rows.
  - destruct lens; [congruence | discriminate].
  - apply (wf_span_means (spans_from 0 lens) emb).
Qed.

Lemma group_sentence_padding_first (enc : Encoding) (emb : Tensor2 R) :
  word_ids enc !! 0 = Some None ->
  UDTubeEncoder.group_sentence enc emb = Raise RuntimeError.
Proof.
  intros Hpad. unfold UDTubeEncoder.group_sentence.
  rewrite (collect_indices_padding_first enc Hpad). reflexivity.
Qed.

End Aggregator.

Lemma map_const_in {A B : Type} (f : A -> B) (c : B) (l : list A) :
  (forall x, In x l -> f x = c) -> map f l = replicate (length l) c.
Proof.
  induction l as [| x l IH]; intros Hf; [reflexivity |].
  cbn. rewrite (Hf x (or_introl eq_refl)), IH; [reflexivity |].
  intros y Hy. apply Hf. right; exact Hy.
Qed.

Section Assembly.
Context {R : Type} `{Scalar R}.

Lemma at_replicate_zero (i k : nat) : at_ i (replicate k zero) = zero.
Proof.
  unfold at_. revert i; induction k as [| k IH]; intros [| i]; cbn; auto.
Qed.

(** An entry of a padded column: inside the column it is the entry of the
    matrix, past its end it is zero. *)
Lemma at_padded_column (i j k : nat) (m : list (list R)) :
  at_ i (column j m ++ replicate k zero) =
  if i <? length m then at_ j (nth i m []) else zero.
Proof.
  destruct (Nat.ltb_spec i (length m)) as [Hlt | Hge].
  - unfold at_ at 1. rewrite app_nth1 by (rewrite length_column; exact Hlt).
    apply at_column.
  - unfold at_ at 1. rewrite app_nth2 by (rewrite length_column; exact Hge).
    apply at_replicate_zero.
Qed.

(** The transposition trick: transposing, padding the trailing axis and
    transposing back appends zero rows. *)
Lemma pad_transposed (n : nat) (t : Tensor2 R) :
  wf2 t -> len t <= n ->
  transpose_rows n (rows (pad (T t) (n - len t) zero)) = zero_padded n t.
Proof.
  destruct t as [m width].
  unfold wf2, len, pad, T, zero_padded; cbn [rows cols].
  intros Hwf Hle.
  unfold transpose_rows at 1.
  replace n with (length m + (n - length m)) at 1 by lia.
  rewrite seq_app, map_app. f_equal.
  - transitivity (map (fun i => nth i m []) (seq 0 (length m)));
      [| apply map_nth_seq; reflexivity].
    apply map_ext_in. intros i Hi. apply in_seq in Hi.
    unfold column at 1, transpose_rows. rewrite !map_map.
    rewrite <- (map_nth_seq zero (nth i m []) width)
      by (apply wf_rows_nth; [exact Hwf | lia]).
    apply map_ext. intros j. rewrite at_padded_column.
    rewrite (proj2 (Nat.ltb_lt _ _)) by lia. reflexivity.
  - transitivity
      (replicate (length (seq (0 + length m) (n - length m)))
                 (replicate width (zero : R)));
      [| rewrite length_seq; reflexivity].
    apply map_const_in. intros i Hi. apply in_seq in Hi.
    unfold column at 1, transpose_rows. rewrite !map_map.
    transitivity (replicate (length (seq 0 width)) (zero : R));
      [| rewrite length_seq; reflexivity].
    apply map_const_in. intros j _. rewrite at_padded_column.
    rewrite (proj2 (Nat.ltb_ge _ _)) by lia. reflexivity.
Qed.


(** Batch assembly: given the per-sentence tensors, the result stacks
    their zero-padded rows, with the largest word count as word axis. *)
Lemma assemble_padded (ss : list (Tensor2 R)) (width : nat) :
  ss <> [] ->
  Forall (fun s => wf2 s /\ cols s = width) ss ->
  let pad_max := max_list (map len ss) in
  (pad_max' ← builtin_max (map len ss);
   stacked ← stack2 (map (fun s => pad (T s) (pad_max' - len s) zero) ss);
   Ok (permute021 stacked))
  = Ok (mkTensor3 (map (zero_padded pad_max) ss) pad_max width).
Proof.
  intros Hne Hss pad_max.
  assert (forall s, s ∈ ss -> len s <= pad_max) as Hle.
  { intros s Hs. apply max_list_elem_of_le.
    apply list_elem_of_fmap. exists s. split; [reflexivity | exact Hs]. }
  destruct ss as [| s0 rest]; [congruence |].
  cbn [map]. rewrite builtin_max_max_list, bind_Ok_l.
  fold pad_max. change (len s0 :: map len rest) with (map len (s0 :: rest)).
  fold pad_max. clearbody pad_max.
  pose proof (Forall_inv Hss) as [Hwf0 Hc0].
  assert (len s0 <= pad_max) as Hle0 by (apply Hle; left).
  unfold stack2.
  rewrite (proj2 (forallb_forall _ _)).
  - rewrite bind_Ok_l. unfold permute021; cbn [mats dim1 dim2].
    assert (cols (pad (T s0) (pad_max - len s0) zero) = pad_max) as ->
      by (unfold pad, T; cbn; lia).
    assert (len (pad (T s0) (pad_max - len s0) zero) = width) as ->.
    { unfold pad, T, len; cbn.
      rewrite length_map, length_transpose_rows. exact Hc0. }
    f_equal. f_equal.
    change (pad (T s0) (pad_max - len s0) zero
            :: map (fun s => pad (T s) (pad_max - len s) zero) rest)
      with (map (fun s => pad (T s) (pad_max - len s) (zero : R))
                (s0 :: rest)).
    rewrite !map_map.
    change (zero_padded pad_max s0 :: map (zero_padded pad_max) rest)
      with (map (zero_padded pad_max) (s0 :: rest)).
    apply map_ext_in. intros s Hs.
    apply list_elem_of_In in Hs.
    destruct (proj1 (Forall_forall _ _) Hss s Hs) as [Hwf _].
    apply pad_transposed; [exact Hwf | apply Hle, Hs].
  - intros u Hu. apply in_map_iff in Hu as (s & <- & Hs).
    apply list_elem_of_In in Hs.
    assert (s ∈ s0 :: rest) as Hs' by (right; exact Hs).
    destruct (proj1 (Forall_forall _ _) Hss s Hs') as [_ Hc].
    pose proof (Hle s Hs') as Hles.
    unfold same_shape2, pad, T, len in *; cbn.
    rewrite !length_map, !length_transpose_rows.
    apply andb_true_iff. split; apply Nat.eqb_eq; lia.
Qed.

End Assembly.

(** ** The span of a word from first to last position *)

Lemma filter_seq_range (P : nat -> Prop) `{forall p, Decision (P p)}
    (n a s e : nat) :
  (forall p, a <= p < a + n -> (P p <-> s <= p < e)) ->
  a <= s -> s <= e -> e <= a + n ->
  filter P (seq a n) = seq s (e - s).
Proof.
  revert a s e; induction n as [| n IH]; intros a s e HP Has Hse Hen.
  - replace (e - s) with 0 by lia. reflexivity.
  - cbn [seq]. destruct (decide (P a)) as [Ha | Ha].
    + rewrite filter_cons_True by exact Ha.
      apply HP in Ha; [| lia].
      assert (s = a) as -> by lia.
      replace (e - a) with (S (e - S a)) by lia. cbn [seq]. f_equal.
      apply IH; try lia.
      intros p Hp. rewrite HP by lia. lia.
    + rewrite filter_cons_False by exact Ha.
      assert (~ (s <= a < e)) as Hout by (rewrite <- HP by lia; exact Ha).
      destruct (decide (s = a)) as [-> | Hne].
      * assert (e = a) as -> by lia. rewrite Nat.sub_diag.
        replace (seq a 0) with (seq (S a) (S a - S a))
          by (rewrite Nat.sub_diag; reflexivity).
        apply IH; try lia.
        intros p Hp. rewrite HP by lia. lia.
      * apply IH; try lia.
        intros p Hp. apply HP. lia.
Qed.

Lemma last_seq (a k d : nat) :
  List.last (seq a k) d = match k with 0 => d | S k' => a + k' end.
Proof.
  destruct k as [| k]; [reflexivity |].
  rewrite seq_S. apply last_last.
Qed.

(** The modelled tokenizer resolves every word to the span it occupies. *)
Lemma encode_resolves (ids : list (option nat)) :
  resolves_spans (encode ids).
Proof.
  intros w s e (Hlt & Hle & Hlabel). cbn [encode word_ids word_to_tokens] in *.
  unfold first_to_last.
  rewrite (filter_seq_range _ (length ids) 0 s e) by (intros; auto; lia).
  replace (e - s) with (S (e - S s)) by lia. cbn [seq].
  rewrite last_seq. do 2 f_equal.
  destruct (e - S s) eqn:Hk; lia.
Qed.

Lemma encode_tokenized_as (lens : list nat) (pad : nat) :
  Forall (fun n => 0 < n) lens ->
  tokenized_as (encode (layout lens pad)) lens.
Proof.
  intros Hpos. split; [apply encode_resolves |].
  split; [exact Hpos |]. exists pad. reflexivity.
Qed.

(** ** The aggregator on a well-tokenized batch *)

Lemma mapM_Forall2 {A B : Type} (f : A -> outcome B) (l : list A)
    (k : list B) :
  Forall2 (fun x y => f x = Ok y) l k -> mapM f l = Ok k.
Proof.
  induction 1 as [| x y l k Hx _ IH]; [reflexivity |].
  cbn [mapM]. rewrite Hx, bind_Ok_l.
  change (mapM f l ≫= (fun k' => Ok (y :: k')) = Ok (y :: k)).
  rewrite IH. reflexivity.
Qed.

Section Batch.
Context {R : Type} `{Scalar R}.

Lemma group_sentences_tokenized (encs : list Encoding)
    (lenss : list (list nat)) (embs : list (Tensor2 R)) :
  Forall2 tokenized_as encs lenss ->
  Forall (fun lens => lens <> []) lenss ->
  Forall2 (fun p y =>
             (let '(enc, emb) := p in UDTubeEncoder.group_sentence enc emb)
             = Ok y)
          (zip encs embs)
          (zip_with (fun lens emb => span_means (spans_from 0 lens) emb)
                    lenss embs).
Proof.
  intros Htok. revert embs.
  induction Htok as [| enc lens encs lenss Henc _ IH]; intros embs Hne.
  - constructor.
  - destruct embs as [| emb embs]; [constructor |].
    apply Forall_cons in Hne as [Hlens Hne].
    cbn [zip_with]. constructor; [| apply IH, Hne].
    apply group_sentence_tokenized; assumption.
Qed.

Lemma wf_batch_span_means (lenss : list (list nat)) (embeddings : Tensor3 R) :
  Forall (fun s => wf2 s /\ cols s = dim2 embeddings)
         (batch_span_means lenss embeddings).
Proof.
  apply Forall_forall. intros t Ht.
  apply list_elem_of_lookup in Ht as [b Hb].
  unfold batch_span_means in Hb.
  apply lookup_zip_with_Some in Hb as (lens & emb & -> & _ & Hemb).
  split; [apply wf_span_means |].
  unfold unbind in Hemb. rewrite list_lookup_fmap in Hemb.
  destruct (mats embeddings !! b); [| discriminate].
  injection Hemb as <-. reflexivity.
Qed.

Lemma len_batch_span_means (lenss : list (list nat))
    (embeddings : Tensor3 R) :
  length lenss <= length (mats embeddings) ->
  map len (batch_span_means lenss embeddings) = map length lenss.
Proof.
  unfold batch_span_means, unbind.
  generalize (mats embeddings) as ms. generalize (dim2 embeddings) as width.
  intros width.
  induction lenss as [| lens lenss IH]; intros ms Hlen; [reflexivity |].
  destruct ms as [| m ms]; [cbn in Hlen; lia |].
  cbn [map zip_with]. f_equal.
  - unfold len, span_means; cbn [rows].
    rewrite length_map. apply length_spans_from.
  - apply IH. cbn in Hlen. lia.
Qed.

(** The result of the aggregator on a batch in which every sentence is
    well tokenized and has at least one word. *)
Lemma group_embeddings_tokenized (embeddings : Tensor3 R)
    (tokenized : BatchEncoding) (lenss : list (list nat)) :
  lenss <> [] ->
  Forall (fun lens => lens <> []) lenss ->
  Forall2 tokenized_as (encodings tokenized) lenss ->
  length (mats embeddings) = length (encodings tokenized) ->
  let pad_max := max_list (map length lenss) in
  UDTubeEncoder._group_embeddings embeddings tokenized =
  Ok (mkTensor3 (map (zero_padded pad_max)
                     (batch_span_means lenss embeddings))
                pad_max (dim2 embeddings)).
Proof.
  intros Hbatch Hne Htok Hlen pad_max.
  pose proof (Forall2_length _ _ _ Htok) as Hlen'.
  unfold UDTubeEncoder._group_embeddings.
  rewrite (mapM_Forall2 _ _ _
             (group_sentences_tokenized _ _ (unbind embeddings) Htok Hne)).
  rewrite bind_Ok_l.
  fold (batch_span_means lenss embeddings).
  pose proof (len_batch_span_means lenss embeddings ltac:(lia)) as Hlens.
  rewrite (assemble_padded (batch_span_means lenss embeddings)
             (dim2 embeddings)).
  - rewrite Hlens. reflexivity.
  - intros Hnil. apply (f_equal (map len)) in Hnil.
    rewrite Hlens in Hnil. destruct lenss; [congruence | discriminate].
  - apply wf_batch_span_means.
Qed.

End Batch.

(** ** The aggregator whenever it returns *)


Section Returned.
Context {R : Type} `{Scalar R}.



End Returned.

(** ** Means over spans *)

Lemma slice_as_seq {A : Type} (d : A) (s e : nat) (l : list A) :
  e <= length l ->
  slice s e l = map (fun k => nth k l d) (seq s (e - s)).
Proof.
  intros He. apply list_eq; intros i. unfold slice.
  rewrite list_lookup_fmap.
  destruct (decide (i < e - s)) as [Hlt | Hge].
  - rewrite lookup_take_lt, lookup_drop, lookup_seq_lt by lia. cbn.
    destruct (lookup_lt_is_Some_2 l (s + i) ltac:(lia)) as [x Hx].
    rewrite Hx. f_equal. symmetry. apply nth_lookup_Some, Hx.
  - rewrite lookup_take_ge, lookup_seq_ge by lia. reflexivity.
Qed.

Lemma at_map_seq {R : Type} `{Scalar R} (f : nat -> R) (n j : nat) :
  j < n -> at_ j (map f (seq 0 n)) = f j.
Proof.
  intros Hj. unfold at_. apply nth_lookup_Some.
  rewrite list_lookup_fmap, lookup_seq_lt by exact Hj. reflexivity.
Qed.

Section Means.
Context {R : Type} `{Scalar R}.

(** Entry [j] of the mean over a span is the arithmetic mean of entry [j]
    of the subword embeddings of the span. *)
Lemma at_mean0_slice (emb : list (list R)) (width s e j : nat) :
  e <= length emb -> j < width ->
  at_ j (mean0 (slice2 s e (mkTensor2 emb width))) = mean_of_span emb s e j.
Proof.
  intros He Hj. unfold mean0, slice2, len; cbn [rows cols].
  rewrite at_map_seq by exact Hj.
  unfold mean_of_span, column.
  rewrite (slice_as_seq [] s e emb He), map_map, length_map, length_seq.
  reflexivity.
Qed.

(** The mean over a span of one subword is that subword's embedding. *)
Lemma mean0_single `{!ExactScalar R} (emb : list (list R)) (width s : nat)
    (row : list R) :
  emb !! s = Some row -> length row = width ->
  mean0 (slice2 s (S s) (mkTensor2 emb width)) = row.
Proof.
  intros Hrow Hlen. unfold mean0, slice2, len; cbn [rows cols].
  pose proof (lookup_lt_Some _ _ _ Hrow) as Hs.
  rewrite (slice_as_seq [] s (S s) emb) by lia.
  replace (S s - s) with 1 by lia. cbn [seq map length].
  rewrite (nth_lookup_Some _ _ [] _ Hrow).
  transitivity (map (fun j => nth j row zero) (seq 0 width));
    [| apply map_nth_seq, Hlen].
  apply map_ext. intros j. unfold column, sum. cbn [map foldl].
  rewrite add_zero_l, divn_one. reflexivity.
Qed.

End Means.

Lemma Q_exact : ExactScalar Q.
Proof.
  split; intros [n d]; cbn.
  - unfold Qplus; cbn. rewrite Z.mul_1_r. reflexivity.
  - unfold Qdiv, Qmult, Qinv; cbn.
    rewrite Z.mul_1_r, Pos.mul_1_r. reflexivity.
Qed.

(** ** The claims about the aggregator *)

(** C2 (counterexample).  A batch whose second sentence is all padding
    does not yield a tensor: the aggregator raises [RuntimeError], because
    [torch.stack] is given the empty list of word embeddings of that
    sentence. *)
Lemma C2_empty_sentence_raises_RuntimeError :
  UDTubeEncoder._group_embeddings example_embeddings
    empty_sentence_tokenized = Raise RuntimeError.
Proof. reflexivity. Qed.

(** C2 (amended).  For every batch containing a sentence with zero real
    words (its word-id map starts with the padding marker), the aggregator
    builds no tensor for that sentence: stacking its empty list of word
    embeddings raises [RuntimeError], so the aggregator returns nothing,
    and it raises [RuntimeError] itself when the sentences before that one
    are aggregated without error. *)
Theorem C2_zero_word_sentence_is_an_error {R : Type} `{Scalar R}
    (embeddings : Tensor3 R) (tokenized : BatchEncoding)
    (b : nat) (enc : Encoding) (emb : Tensor2 R) :
  encodings tokenized !! b = Some enc ->
  unbind embeddings !! b = Some emb ->
  word_ids enc !! 0 = Some None ->
  UDTubeEncoder.group_sentence enc emb = Raise RuntimeError /\
  ~ returns (UDTubeEncoder._group_embeddings embeddings tokenized) /\
  (Forall (fun '(enc', emb') =>
             returns (UDTubeEncoder.group_sentence enc' emb'))
          (take b (zip (encodings tokenized) (unbind embeddings))) ->
   UDTubeEncoder._group_embeddings embeddings tokenized
   = Raise RuntimeError).
Proof.
  intros Henc Hemb Hpad.
  pose proof (group_sentence_padding_first enc emb Hpad) as Hraise.
  assert (zip (encodings tokenized) (unbind embeddings) !! b
          = Some (enc, emb)) as Hpair.
  { unfold zip. apply lookup_zip_with_Some. eauto. }
  split; [exact Hraise |]. split.
  - intros [out Hout]. unfold UDTubeEncoder._group_embeddings in Hout.
    apply bind_Ok in Hout as (ss & Hss & _).
    eapply mapM_not_Ok; [exact Hpair | | eexists; exact Hss].
    change (~ returns (UDTubeEncoder.group_sentence enc emb)).
    rewrite Hraise. intros [y Hy]. discriminate.
  - intros Hbefore. unfold UDTubeEncoder._group_embeddings.
    erewrite mapM_Raise; [reflexivity | exact Hpair | exact Hraise |].
    eapply Forall_impl; [exact Hbefore |]. intros [enc' emb'] Hret.
    exact Hret.
Qed.

Lemma C2_zero_word_sentence_is_an_error_witness :
  UDTubeEncoder._group_embeddings example_embeddings
    empty_sentence_tokenized = Raise RuntimeError.
Proof.
  refine (proj2 (proj2
    (@C2_zero_word_sentence_is_an_error Q Q_scalar example_embeddings
       empty_sentence_tokenized 1 (encode (layout [] 6))
       (mkTensor2 [[1; 0]; [0; 1]; [2; 2]; [3; 3]; [4; 6]; [6; 8]]%Q 2)
       eq_refl eq_refl eq_refl)) _).
  repeat constructor. eexists. reflexivity.
Defined.


Lemma example_batch_tokenized :
  Forall2 tokenized_as (encodings example_tokenized) example_lenss.
Proof.
  repeat constructor;
    (apply encode_tokenized_as; repeat constructor; lia).
Defined.


(** C3.  For every batch in which each sentence is well tokenized and has
    at least one word, and every word [w] of a sentence whose subwords
    occupy the span [s, e) of that sentence's subword embeddings: row [w]
    of the sentence in the tensor returned by the aggregator has, as entry
    [j], the sum of entry [j] of the subword embeddings at positions [s]
    to [e-1] divided by [e - s]; and under exact arithmetic, when
    [e = s + 1] the row is the embedding of subword [s] itself. *)
Theorem C3_word_embedding_is_the_span_mean {R : Type} `{Scalar R}
    (embeddings : Tensor3 R) (tokenized : BatchEncoding)
    (lenss : list (list nat))
    (b : nat) (enc : Encoding) (emb : list (list R)) (w s e : nat) :
  lenss <> [] ->
  Forall (fun lens => lens <> []) lenss ->
  Forall2 tokenized_as (encodings tokenized) lenss ->
  length (mats embeddings) = length (encodings tokenized) ->
  wf3 embeddings ->
  encodings tokenized !! b = Some enc ->
  mats embeddings !! b = Some emb ->
  length (word_ids enc) <= dim1 embeddings ->
  occupies (word_ids enc) w s e ->
  exists out sentence row,
    UDTubeEncoder._group_embeddings embeddings tokenized = Ok out /\
    mats out !! b = Some sentence /\
    sentence !! w = Some row /\
    length row = dim2 embeddings /\
    (forall j, j < dim2 embeddings ->
               at_ j row = mean_of_span emb s e j) /\
    (ExactScalar R -> e = S s -> emb !! s = Some row).
Proof.
  intros Hbatch Hne Htok Hlen Hwf Henc Hemb Hfit Hocc.
  destruct (Forall2_lookup_l _ _ _ _ _ Htok Henc) as (lens & Hl & Htok_b).
  assert (unbind embeddings !! b = Some (mkTensor2 emb (dim2 embeddings)))
    as Hunbind
    by (unfold unbind; rewrite list_lookup_fmap, Hemb; reflexivity).
  destruct (proj1 (Forall_forall _ _) Hwf emb
              ltac:(apply list_elem_of_lookup; eauto)) as [Hrows Hwidth].
  (* the span is the one of word [w] in the layout *)
  pose proof Htok_b as (_ & Hpos & pad & Hids).
  assert (spans_from 0 lens !! w = Some (s, e)) as Hspan
    by (apply (occupies_layout lens pad); [exact Hpos |];
        rewrite <- Hids; exact Hocc).
  assert (e <= length emb) as He
    by (destruct Hocc as (_ & He & _); lia).
  pose proof (lookup_lt_Some _ _ _ Hspan) as Hw.
  rewrite length_spans_from in Hw.
  set (row := mean0 (slice2 s e (mkTensor2 emb (dim2 embeddings)))).
  eexists. exists (zero_padded (max_list (map length lenss))
                     (span_means (spans_from 0 lens)
                                 (mkTensor2 emb (dim2 embeddings)))), row.
  split.
  { apply (group_embeddings_tokenized embeddings tokenized lenss);
      assumption. }
  split.
  { cbn [mats]. rewrite list_lookup_fmap.
    unfold batch_span_means.
    rewrite (proj2 (lookup_zip_with_Some _ _ _ _ _)
               (ex_intro _ lens (ex_intro _ _
                  (conj eq_refl (conj Hl Hunbind))))).
    reflexivity. }
  split.
  { unfold zero_padded, span_means; cbn [rows].
    rewrite lookup_app_l
      by (rewrite length_map, length_spans_from; exact Hw).
    rewrite list_lookup_fmap, Hspan. reflexivity. }
  split; [apply (length_mean0 (slice2 s e (mkTensor2 emb _))) |].
  split.
  - intros j Hj. apply at_mean0_slice; assumption.
  - intros Hexact ->.
    destruct (lookup_lt_is_Some_2 emb s ltac:(lia)) as [r Hr].
    rewrite Hr. f_equal. symmetry.
    apply mean0_single; [exact Hr |].
    exact (Forall_lookup_1 _ _ _ _ Hwidth Hr).
Qed.

Lemma C3_word_embedding_is_the_span_mean_witness :
  exists out sentence,
    UDTubeEncoder._group_embeddings example_embeddings example_tokenized
      = Ok out /\
    mats out !! 0 = Some sentence /\
    (exists row, sentence !! 1 = Some row /\
                 at_ 0 row = ((0 + 3 + 5) / 2)%Q /\
                 at_ 1 row = ((0 + 4 + 6) / 2)%Q) /\
    sentence !! 0 = Some [1%Q; 2%Q].
Proof.
  pose proof (fun w s e =>
    @C3_word_embedding_is_the_span_mean Q Q_scalar example_embeddings
      example_tokenized example_lenss 0 _ _ w s e
      ltac:(discriminate)
      ltac:(repeat constructor; discriminate)
      example_batch_tokenized eq_refl
      ltac:(repeat constructor)
      eq_refl eq_refl ltac:(cbn; lia)) as Hthm.
  destruct (Hthm 1 1 3 (layout_occupies [1] [1] 2 2 ltac:(lia)))
    as (out & sentence & row & Hout & Hsentence & Hrow & _ & Hmean & _).
  destruct (Hthm 0 0 1 (layout_occupies [] [2; 1] 1 2 ltac:(lia)))
    as (out' & sentence' & row' & Hout' & Hsentence' & Hrow' & _ & _
        & Hsingle).
  rewrite Hout in Hout'. injection Hout' as <-.
  rewrite Hsentence in Hsentence'. injection Hsentence' as <-.
  exists out, sentence. split; [exact Hout |]. split; [exact Hsentence |].
  split.
  - exists row. split; [exact Hrow |].
    split; [apply (Hmean 0) | apply (Hmean 1)]; cbn; lia.
  - rewrite Hrow'. symmetry. apply (Hsingle Q_exact eq_refl).
Defined.

(** * Further properties of the code *)

(** ** The optimizer factory beyond Adam *)

Lemma sgd_binding (lr b1 b2 : Q) :
  optim.bind_positional (optim.positional optim.SGD)
                        [Float lr; Float b1; Float b2]
  = Ok (<["lr" := Float lr]>
        (<["momentum" := Float b1]> (<["dampening" := Float b2]> ∅))).
Proof. reflexivity. Qed.

Lemma adadelta_binding (lr b1 b2 : Q) :
  optim.bind_positional (optim.positional optim.Adadelta)
                        [Float lr; Float b1; Float b2]
  = Ok (<["lr" := Float lr]>
        (<["rho" := Float b1]> (<["eps" := Float b2]> ∅))).
Proof. reflexivity. Qed.

Lemma require_bound (h : gmap string val) (name : string) (q : Q)
    (p : val -> outcome bool) :
  h !! name = Some (Float q) -> p (Float q) = Ok true ->
  optim.require h name p = Ok ().
Proof. intros Hh Hp. unfold optim.require. rewrite Hh, Hp. reflexivity. Qed.

Lemma require_unbound (h : gmap string val) (name : string)
    (p : val -> outcome bool) :
  h !! name = None -> optim.require h name p = Ok ().
Proof. intros Hh. unfold optim.require. rewrite Hh. reflexivity. Qed.

Lemma ge0_Float (q : Q) : (0 <= q)%Q -> optim.ge0 (Float q) = Ok true.
Proof.
  intros Hq. unfold optim.ge0; cbn.
  rewrite (proj2 (Qle_bool_iff 0 q) Hq). reflexivity.
Qed.

(** X1.  The SGD optimizer is built with [beta1] as its momentum and [beta2] as
    its dampening: for a non-negative learning rate and a non-negative
    [beta1], and at least one parameter, [_get_optimizer] returns the SGD
    optimizer over the given parameters with exactly these three
    hyper-parameters bound. *)
Theorem X_sgd_gets_beta1_as_momentum (self : OptimizationConfig.t)
    (params : list optim.nn_Parameter) :
  OptimizationConfig.optimizer self = "sgd" ->
  params <> [] ->
  (0 <= OptimizationConfig.learning_rate self)%Q ->
  (0 <= OptimizationConfig.beta1 self)%Q ->
  OptimizationConfig._get_optimizer self params =
  Ok (optim.mkOptimizer optim.SGD params
        (<["lr" := Float (OptimizationConfig.learning_rate self)]>
         (<["momentum" := Float (OptimizationConfig.beta1 self)]>
          (<["dampening" := Float (OptimizationConfig.beta2 self)]> ∅)))).
Proof.
  intros Hname Hparams Hlr Hb1.
  unfold OptimizationConfig._get_optimizer. rewrite Hname.
  change (getitem OptimizationConfig.optim_fac "sgd") with (Ok optim.SGD).
  rewrite bind_Ok_l. unfold optim.construct.
  rewrite sgd_binding, bind_Ok_l. unfold optim.validate.
  set (h := <["lr" := _]> _).
  rewrite (require_bound h "lr" (OptimizationConfig.learning_rate self) _
             eq_refl (ge0_Float _ Hlr)), bind_Ok_l.
  rewrite (require_bound h "momentum" (OptimizationConfig.beta1 self) _
             eq_refl (ge0_Float _ Hb1)), bind_Ok_l.
  rewrite (require_unbound h "weight_decay" _ eq_refl), bind_Ok_l.
  destruct params; [congruence | reflexivity].
Qed.

Lemma X_sgd_gets_beta1_as_momentum_witness :
  exists o,
    OptimizationConfig._get_optimizer (sgd_config None) [0; 1] = Ok o /\
    optim.param_groups o = [0; 1] /\
    optim.hyper o !! "momentum" = Some (Float (9 # 10)) /\
    optim.hyper o !! "dampening" = Some (Float (999 # 1000)).
Proof.
  eexists. split.
  - apply (X_sgd_gets_beta1_as_momentum (sgd_config None) [0; 1]).
    + reflexivity.
    + discriminate.
    + cbn. apply Qle_bool_iff. reflexivity.
    + cbn. apply Qle_bool_iff. reflexivity.
  - repeat split.
Defined.

Lemma in_unit_closed_Float (q : Q) :
  (0 <= q)%Q -> (q <= 1)%Q -> optim.in_unit_closed (Float q) = Ok true.
Proof.
  intros H0 H1. unfold optim.in_unit_closed; cbn.
  rewrite (proj2 (Qle_bool_iff 0 q) H0), (proj2 (Qle_bool_iff q 1) H1).
  reflexivity.
Qed.

(** X2.  The Adadelta optimizer is built with [beta1] as its decay rate [rho]
    and [beta2] as its [eps]: for a non-negative learning rate, [beta1]
    between 0 and 1, a non-negative [beta2] and at least one parameter,
    [_get_optimizer] returns the Adadelta optimizer with exactly these
    three hyper-parameters bound. *)
Theorem X_adadelta_gets_beta1_as_rho (self : OptimizationConfig.t)
    (params : list optim.nn_Parameter) :
  OptimizationConfig.optimizer self = "adadelta" ->
  params <> [] ->
  (0 <= OptimizationConfig.learning_rate self)%Q ->
  (0 <= OptimizationConfig.beta1 self)%Q ->
  (OptimizationConfig.beta1 self <= 1)%Q ->
  (0 <= OptimizationConfig.beta2 self)%Q ->
  OptimizationConfig._get_optimizer self params =
  Ok (optim.mkOptimizer optim.Adadelta params
        (<["lr" := Float (OptimizationConfig.learning_rate self)]>
         (<["rho" := Float (OptimizationConfig.beta1 self)]>
          (<["eps" := Float (OptimizationConfig.beta2 self)]> ∅)))).
Proof.
  intros Hname Hparams Hlr Hb1 Hb1' Hb2.
  unfold OptimizationConfig._get_optimizer. rewrite Hname.
  change (getitem OptimizationConfig.optim_fac "adadelta")
    with (Ok optim.Adadelta).
  rewrite bind_Ok_l. unfold optim.construct.
  rewrite adadelta_binding, bind_Ok_l. unfold optim.validate.
  set (h := <["lr" := _]> _).
  rewrite (require_bound h "lr" (OptimizationConfig.learning_rate self) _
             eq_refl (ge0_Float _ Hlr)), bind_Ok_l.
  rewrite (require_bound h "rho" (OptimizationConfig.beta1 self) _
             eq_refl (in_unit_closed_Float _ Hb1 Hb1')), bind_Ok_l.
  rewrite (require_bound h "eps" (OptimizationConfig.beta2 self) _
             eq_refl (ge0_Float _ Hb2)), bind_Ok_l.
  rewrite (require_unbound h "weight_decay" _ eq_refl), bind_Ok_l.
  destruct params; [congruence | reflexivity].
Qed.

Lemma X_adadelta_gets_beta1_as_rho_witness :
  exists o,
    OptimizationConfig._get_optimizer adadelta_config [0] = Ok o /\
    optim.hyper o !! "rho" = Some (Float (9 # 10)) /\
    optim.hyper o !! "eps" = Some (Float (1 # 1000000)).
Proof.
  eexists. split.
  - apply (X_adadelta_gets_beta1_as_rho adadelta_config [0]);
      first [reflexivity | discriminate
            | cbn; apply Qle_bool_iff; reflexivity].
  - repeat split.
Defined.

(** ** What [configure] can and cannot return *)

Lemma configure_optimizer_raises `{Schedulers} (self : OptimizationConfig.t)
    (params : list optim.nn_Parameter) :
  raises (OptimizationConfig._get_optimizer self params) ->
  raises (OptimizationConfig.configure self params).
Proof.
  intros [e He]. unfold OptimizationConfig.configure. rewrite He.
  exists e. reflexivity.
Qed.

(** X3.  For every configuration that names ["adam"] or ["adamw"], whatever the
    hyper-parameters, the parameters and the scheduler, neither
    [_get_optimizer] nor [configure] returns: both raise. *)
Theorem X_adam_family_is_never_configured `{Schedulers}
    (self : OptimizationConfig.t) (params : list optim.nn_Parameter) :
  OptimizationConfig.optimizer self = "adam" \/
  OptimizationConfig.optimizer self = "adamw" ->
  raises (OptimizationConfig._get_optimizer self params) /\
  raises (OptimizationConfig.configure self params).
Proof.
  intros Hname.
  pose proof (adam_family_never_constructed self params Hname) as Hraise.
  split; [exact Hraise | apply configure_optimizer_raises, Hraise].
Qed.

Lemma X_adam_family_is_never_configured_witness :
  raises (OptimizationConfig._get_optimizer adamw_plateau_config [0; 1]) /\
  raises (@OptimizationConfig.configure recording_schedulers
            adamw_plateau_config [0; 1]).
Proof.
  apply (@X_adam_family_is_never_configured recording_schedulers
           adamw_plateau_config [0; 1]).
  right. reflexivity.
Defined.

(** X4.  No optimizer is ever built over an empty parameter list: whatever the
    configuration, [_get_optimizer] and [configure] raise when given no
    parameters. *)
Theorem X_no_optimizer_without_parameters `{Schedulers}
    (self : OptimizationConfig.t) :
  raises (OptimizationConfig._get_optimizer self []) /\
  raises (OptimizationConfig.configure self []).
Proof.
  assert (raises (OptimizationConfig._get_optimizer self [])) as Hraise.
  { unfold OptimizationConfig._get_optimizer, getitem.
    destruct (OptimizationConfig.optim_fac !! _) as [c |];
      [| exists KeyError; reflexivity].
    rewrite bind_Ok_l. unfold optim.construct.
    pose proof (bind_positional_total (optim.positional c)
                  [Float (OptimizationConfig.learning_rate self);
                   Float (OptimizationConfig.beta1 self);
                   Float (OptimizationConfig.beta2 self)]) as Hb.
    destruct (optim.bind_positional _ _) as [h | e |];
      [| exists e; reflexivity | congruence].
    rewrite bind_Ok_l.
    pose proof (validate_total c h) as Hv.
    destruct (optim.validate c h) as [[] | e |];
      [| exists e; reflexivity | congruence].
    exists ValueError. reflexivity. }
  split; [exact Hraise | apply configure_optimizer_raises, Hraise].
Qed.

(** X5.  Every bundle that [configure] returns holds, under ["optimizer"], the
    optimizer that [_get_optimizer] built, and has no key other than
    ["optimizer"] and ["lr_scheduler"].  The ["lr_scheduler"] entry is there
    exactly when the scheduler field is truthy; it then names one of the
    two recognised schedulers and is the dictionary with the scheduler
    that [_get_scheduler] built under ["scheduler"] and ["val_loss"] under
    ["monitor"], and nothing else. *)
Theorem X_configure_returned_bundle `{Schedulers}
    (self : OptimizationConfig.t) (params : list optim.nn_Parameter)
    (d : gmap string OptimizationConfig.entry) :
  OptimizationConfig.configure self params = Ok d ->
  exists o,
    OptimizationConfig._get_optimizer self params = Ok o /\
    d !! "optimizer" = Some (OptimizationConfig.TheOptimizer o) /\
    (forall k, is_Some (d !! k) -> k = "optimizer" \/ k = "lr_scheduler") /\
    (truthy (OptimizationConfig.scheduler self) = false ->
     d !! "lr_scheduler" = None) /\
    (truthy (OptimizationConfig.scheduler self) = true ->
     OptimizationConfig.scheduler_key self
       ∈ ["reduceonplateau"; "warmupinvsqrt"] /\
     exists s,
       OptimizationConfig._get_scheduler self o = Ok s /\
       d !! "lr_scheduler" =
       Some (OptimizationConfig.Dict
               (<["scheduler" := OptimizationConfig.TheScheduler s]>
                {["monitor" := OptimizationConfig.Str "val_loss"]}))).
Proof.
  unfold OptimizationConfig.configure. intros Hd.
  apply bind_Ok in Hd as (o & Ho & Hd). exists o. split; [exact Ho |].
  destruct (truthy (OptimizationConfig.scheduler self)) eqn:Htruthy.
  - apply bind_Ok in Hd as (s & Hs & [= <-]).
    split; [reflexivity |]. split.
    { intros k [v Hk].
      destruct (decide (k = "lr_scheduler")) as [-> | Hk1]; [by right |].
      rewrite lookup_insert_ne in Hk by done.
      destruct (decide (k = "optimizer")) as [-> | Hk2]; [by left |].
      rewrite lookup_singleton_ne in Hk by done. discriminate. }
    split; [discriminate |]. intros _. split.
    + unfold OptimizationConfig._get_scheduler, getitem in Hs.
      destruct (OptimizationConfig.scheduler_fac !! _) eqn:Hfac;
        [| discriminate].
      destruct (decide (OptimizationConfig.scheduler_key self
                          ∈ ["reduceonplateau"; "warmupinvsqrt"]))
        as [Hin | Hout]; [exact Hin |].
      apply scheduler_fac_None in Hout. congruence.
    + exists s. split; [exact Hs | reflexivity].
  - injection Hd as <-. split; [reflexivity |]. split.
    { intros k [v Hk].
      destruct (decide (k = "optimizer")) as [-> | Hk2]; [by left |].
      rewrite lookup_singleton_ne in Hk by done. discriminate. }
    split; [reflexivity | discriminate].
Qed.

Lemma X_configure_returned_bundle_witness :
  exists d o,
    @OptimizationConfig.configure recording_schedulers
      (sgd_config (Some "warmupinvsqrt")) [0] = Ok d /\
    d !! "optimizer" = Some (OptimizationConfig.TheOptimizer o) /\
    is_Some (d !! "lr_scheduler").
Proof.
  eexists.
  destruct (@X_configure_returned_bundle recording_schedulers
              (sgd_config (Some "warmupinvsqrt")) [0] _ eq_refl)
    as (o & _ & Ho & _ & _ & Hsched).
  exists o. split; [reflexivity |]. split; [exact Ho |].
  destruct (Hsched eq_refl) as (_ & s & _ & ->). eexists; reflexivity.
Defined.

(** ** Termination of the span loop *)

Lemma collect_indices_advances (enc : Encoding) :
  advances enc ->
  forall fuel i acc,
    length (word_ids enc) - i < fuel ->
    UDTubeEncoder.collect_indices fuel enc i acc <> Diverge.
Proof.
  intros Hadv. induction fuel as [| fuel IH]; intros i acc Hfuel; [lia |].
  cbn [UDTubeEncoder.collect_indices].
  destruct (Nat.ltb_spec i (length (word_ids enc))) as [Hlt | Hge];
    [| discriminate].
  destruct (word_ids enc !! i) as [[w |] |] eqn:Hi; try discriminate.
  destruct (word_to_tokens enc w) as [[s e] |] eqn:Hw; [| discriminate].
  pose proof (Hadv i w s e Hi Hw). apply IH. lia.
Qed.

(** A well-tokenized sentence advances. *)
Lemma tokenized_advances (enc : Encoding) (lens : list nat) :
  tokenized_as enc lens -> advances enc.
Proof.
  intros (Hres & Hpos & pad & Hids) i w s e Hi Hw.
  assert (w < length lens) as Hlt
    by (rewrite Hids in Hi; apply layout_from_bounds in Hi; lia).
  destruct (lookup_lt_is_Some_2 lens w Hlt) as [n Hn].
  pose proof (take_drop_middle lens w n Hn) as Hsplit.
  assert (length (take w lens) = w) as Htake by (rewrite length_take; lia).
  pose proof (layout_occupies (take w lens) (drop (S w) lens) n pad
                (Forall_lookup_1 _ _ _ _ Hpos Hn)) as Hocc.
  rewrite Hsplit, Htake, <- Hids in Hocc.
  rewrite (Hres _ _ _ Hocc) in Hw. injection Hw as <- <-.
  destruct Hocc as (_ & _ & Hlabel). apply Hlabel in Hi. lia.
Qed.

Lemma mapM_not_Diverge {A B : Type} (f : A -> outcome B) (l : list A) :
  Forall (fun x => f x <> Diverge) l -> mapM f l <> Diverge.
Proof.
  induction 1 as [| x l Hx _ IH]; [discriminate |].
  cbn [mapM]. destruct (f x) as [y | e |]; [| discriminate | congruence].
  rewrite bind_Ok_l.
  change (mapM f l ≫= (fun k => Ok (y :: k)) <> Diverge).
  destruct (mapM f l); [discriminate | discriminate | congruence].
Qed.

Lemma stack2_total {A : Type} (ts : list (Tensor2 A)) :
  stack2 ts <> Diverge.
Proof.
  unfold stack2. destruct ts; [discriminate |].
  destruct (forallb _ _); discriminate.
Qed.

Section Termination.
Context {R : Type} `{Scalar R}.

Lemma group_sentence_advances (enc : Encoding) (emb : Tensor2 R) :
  advances enc -> UDTubeEncoder.group_sentence enc emb <> Diverge.
Proof.
  intros Hadv. unfold UDTubeEncoder.group_sentence.
  pose proof (collect_indices_advances enc Hadv
                (UDTubeEncoder.loop_fuel enc) 0 []
                ltac:(unfold UDTubeEncoder.loop_fuel; lia)) as Hloop.
  destruct (UDTubeEncoder.collect_indices _ _ _ _) as [indices | e |];
    [| discriminate | congruence].
  rewrite bind_Ok_l. unfold stack1.
  destruct (map _ indices); [discriminate |].
  destruct (forallb _ _); discriminate.
Qed.

End Termination.

(** X6.  When, in every sentence of the batch, each span that the tokenizer
    resolves ends beyond the position it was asked for, the aggregator
    terminates: it returns a tensor or raises, whatever the embeddings. *)
Theorem X_aggregator_terminates_when_spans_advance {R : Type} `{Scalar R}
    (embeddings : Tensor3 R) (tokenized : BatchEncoding) :
  Forall advances (encodings tokenized) ->
  UDTubeEncoder._group_embeddings embeddings tokenized <> Diverge.
Proof.
  intros Hadv. unfold UDTubeEncoder._group_embeddings.
  assert (mapM (fun '(enc, emb) => UDTubeEncoder.group_sentence enc emb)
               (zip (encodings tokenized) (unbind embeddings)) <> Diverge)
    as Hmap.
  { apply mapM_not_Diverge, Forall_forall. intros [enc emb] Hin.
    apply group_sentence_advances.
    apply list_elem_of_lookup in Hin as [b Hb].
    apply lookup_zip_with_Some in Hb as (enc' & emb' & [= <- <-] & Henc & _).
    exact (Forall_lookup_1 _ _ _ _ Hadv Henc). }
  destruct (mapM _ _) as [ss | e |]; [| discriminate | congruence].
  rewrite bind_Ok_l.
  destruct (builtin_max (map len ss)) as [n | e |] eqn:Hmax;
    [| discriminate | destruct ss; discriminate].
  rewrite bind_Ok_l.
  pose proof (stack2_total
                (map (fun s => pad (T s) (n - len s) zero) ss)) as Hstack.
  destruct (stack2 _); [discriminate | discriminate | congruence].
Qed.

Lemma X_aggregator_terminates_when_spans_advance_witness :
  UDTubeEncoder._group_embeddings example_embeddings example_tokenized
    <> Diverge.
Proof.
  apply (@X_aggregator_terminates_when_spans_advance Q Q_scalar).
  repeat apply Forall_cons_2; [| | apply Forall_nil_2].
  - apply (tokenized_advances _ [1; 2; 1]), encode_tokenized_as.
    repeat constructor.
  - apply (tokenized_advances _ [1; 1; 1; 1; 2]), encode_tokenized_as.
    repeat constructor.
Defined.

(** A run of the loop that ends does so within the fuel of [loop_fuel]. *)
Lemma loop_fuel_finds_every_result (enc : Encoding) (fuel : nat) :
  UDTubeEncoder.collect_indices fuel enc 0 [] <> Diverge ->
  UDTubeEncoder.collect_indices (UDTubeEncoder.loop_fuel enc) enc 0 [] =
  UDTubeEncoder.collect_indices fuel enc 0 [].
Proof.
  intros Hend.
  destruct (le_lt_dec fuel (UDTubeEncoder.loop_fuel enc)) as [Hle | Hgt].
  - apply collect_indices_more_fuel; assumption.
  - symmetry. apply collect_indices_more_fuel; [| lia].
    intros Hout. apply Hend. apply loop_fuel_is_enough, Hout.
Qed.

(** X7.  The span loop of a sentence stops within [len(word_ids) + 1] tests of
    its condition or not at all: a run that ends after any number of tests
    gives the same spans, or the same exception, as the run cut at that
    bound. *)
Theorem X_span_loop_stops_early_or_never (enc : Encoding) (fuel : nat)
    (indices : list (nat * nat)) :
  (UDTubeEncoder.collect_indices fuel enc 0 [] = Ok indices ->
   UDTubeEncoder.collect_indices (S (length (word_ids enc))) enc 0 []
     = Ok indices /\
   length indices <= length (word_ids enc)) /\
  (UDTubeEncoder.collect_indices (S (length (word_ids enc))) enc 0 []
     = Diverge ->
   forall fuel', UDTubeEncoder.collect_indices fuel' enc 0 [] = Diverge).
Proof.
  split.
  - intros Hok.
    pose proof (loop_fuel_finds_every_result enc fuel) as Hfit.
    rewrite Hok in Hfit. specialize (Hfit ltac:(discriminate)).
    split; [exact Hfit |].
    unfold UDTubeEncoder.loop_fuel in Hfit.
    assert (forall n i acc out,
              UDTubeEncoder.collect_indices n enc i acc = Ok out ->
              length out < length acc + n) as Hcount.
    { induction n as [| n IH]; intros i acc out; [discriminate |].
      cbn [UDTubeEncoder.collect_indices].
      destruct (i <? length (word_ids enc));
        [| intros [= <-]; lia].
      destruct (word_ids enc !! i) as [[w |] |];
        try (intros [= <-]; lia).
      destruct (word_to_tokens enc w) as [[s e] |]; [| discriminate].
      intros Hout. apply IH in Hout. rewrite length_app in Hout.
      cbn in Hout. lia. }
    apply Hcount in Hfit. cbn in Hfit. lia.
  - intros Hout fuel'. apply loop_fuel_is_enough. exact Hout.
Qed.

Lemma X_span_loop_stops_early_or_never_witness :
  UDTubeEncoder.collect_indices 7 (encode (layout [1; 2; 1] 2)) 0 []
    = Ok [(0, 1); (1, 3); (3, 4)] /\
  3 <= 6.
Proof.
  exact (proj1 (X_span_loop_stops_early_or_never
                  (encode (layout [1; 2; 1] 2)) 50
                  [(0, 1); (1, 3); (3, 4)]) eq_refl).
Defined.

(** ** Sentences and batches the aggregator rejects *)

Lemma collect_indices_spanless (enc : Encoding) (n i0 i w : nat)
    (acc : list (nat * nat)) :
  cursor_after enc n i0 = Some i ->
  word_ids enc !! i = Some (Some w) ->
  word_to_tokens enc w = None ->
  UDTubeEncoder.collect_indices (S n) enc i0 acc = Raise TypeError.
Proof.
  intros Hreach Hi Hw. revert i0 acc Hreach.
  induction n as [| n IH]; intros i0 acc Hreach.
  - injection Hreach as ->. cbn [UDTubeEncoder.collect_indices].
    rewrite (proj2 (Nat.ltb_lt _ _) (lookup_lt_Some _ _ _ Hi)), Hi, Hw.
    reflexivity.
  - cbn [cursor_after] in Hreach. unfold next_cursor in Hreach.
    cbn [UDTubeEncoder.collect_indices].
    destruct (i0 <? length (word_ids enc)); [| discriminate].
    destruct (word_ids enc !! i0) as [[w0 |] |]; try discriminate.
    destruct (word_to_tokens enc w0) as [[s e] |]; [| discriminate].
    apply IH, Hreach.
Qed.

(** X8.  When the span loop of a sentence reaches a position whose word the
    tokenizer resolves to no span, subscripting the missing span raises
    [TypeError]: the sentence yields no tensor, and neither does a batch
    that contains it. *)
Theorem X_word_without_span_is_a_TypeError {R : Type} `{Scalar R}
    (embeddings : Tensor3 R) (tokenized : BatchEncoding)
    (b n i w : nat) (enc : Encoding) (emb : Tensor2 R) :
  encodings tokenized !! b = Some enc ->
  unbind embeddings !! b = Some emb ->
  cursor_after enc n 0 = Some i ->
  word_ids enc !! i = Some (Some w) ->
  word_to_tokens enc w = None ->
  UDTubeEncoder.group_sentence enc emb = Raise TypeError /\
  ~ returns (UDTubeEncoder._group_embeddings embeddings tokenized).
Proof.
  intros Henc Hemb Hreach Hi Hw.
  assert (UDTubeEncoder.group_sentence enc emb = Raise TypeError) as Hraise.
  { unfold UDTubeEncoder.group_sentence.
    rewrite (loop_fuel_finds_every_result enc (S n));
      rewrite (collect_indices_spanless enc n 0 i w [] Hreach Hi Hw);
      [reflexivity | discriminate]. }
  split; [exact Hraise |].
  intros [out Hout]. unfold UDTubeEncoder._group_embeddings in Hout.
  apply bind_Ok in Hout as (ss & Hss & _).
  eapply (mapM_not_Ok _ _ b (enc, emb));
    [| | eexists; exact Hss].
  - unfold zip. apply lookup_zip_with_Some. eauto.
  - change (~ returns (UDTubeEncoder.group_sentence enc emb)).
    rewrite Hraise. intros [y Hy]. discriminate.
Qed.

Lemma X_word_without_span_is_a_TypeError_witness :
  UDTubeEncoder.group_sentence spanless_encoding
    (mkTensor2 [[1; 2]; [3; 4]]%Q 2) = Raise TypeError /\
  ~ returns (UDTubeEncoder._group_embeddings
               (mkTensor3 [[[1; 2]; [3; 4]]]%Q 2 2)
               (mkBatchEncoding (mkTensor2 [[7; 8]%Z] 2)
                                (mkTensor2 [[1; 1]%Z] 2)
                                [spanless_encoding])).
Proof.
  apply (@X_word_without_span_is_a_TypeError Q Q_scalar _ _ 0 1 1 1
           spanless_encoding (mkTensor2 [[1; 2]; [3; 4]]%Q 2));
    reflexivity.
Defined.

(** X9.  A batch without sentences, or a subword-embedding tensor without
    sentences, makes the aggregator raise [ValueError]: the maximum of no
    word counts is undefined. *)
Theorem X_empty_batch_is_a_ValueError {R : Type} `{Scalar R}
    (embeddings : Tensor3 R) (tokenized : BatchEncoding) :
  encodings tokenized = [] \/ mats embeddings = [] ->
  UDTubeEncoder._group_embeddings embeddings tokenized = Raise ValueError.
Proof.
  intros Hempty. unfold UDTubeEncoder._group_embeddings.
  assert (zip (encodings tokenized) (unbind embeddings) = []) as ->.
  { destruct Hempty as [-> | Hm]; [reflexivity |].
    unfold unbind. rewrite Hm. apply zip_with_nil_r. }
  reflexivity.
Qed.

Lemma X_empty_batch_is_a_ValueError_witness :
  UDTubeEncoder._group_embeddings example_embeddings no_sentence_tokenized
  = Raise ValueError.
Proof.
  apply (@X_empty_batch_is_a_ValueError Q Q_scalar). left. reflexivity.
Defined.

(** ** What the aggregator reads and what it returns *)

Section Reads.
Context {R : Type} `{Scalar R}.

Lemma unbind_app (ms more : list (list (list R))) (n1 n2 : nat) :
  unbind (mkTensor3 (ms ++ more) n1 n2) =
  unbind (mkTensor3 ms n1 n2) ++ unbind (mkTensor3 more n1 n2).
Proof. unfold unbind; cbn [mats dim2]. apply map_app. Qed.

Lemma length_unbind (t : Tensor3 R) : length (unbind t) = length (mats t).
Proof. unfold unbind. apply length_map. Qed.

End Reads.

(** X10.  The aggregator pairs encodings with embedded sentences and stops at
    the shorter of the two: encodings beyond the embedded sentences, and
    embedded sentences beyond the encodings, are dropped without an error,
    and the token ids and attention mask of the batch are not read. *)
Theorem X_aggregator_ignores_unpaired_sentences {R : Type} `{Scalar R}
    (ms more_ms : list (list (list R))) (n1 n2 : nat)
    (ids ids' mask mask' : Tensor2 Z) (encs more_encs : list Encoding) :
  length encs = length ms ->
  UDTubeEncoder._group_embeddings
    (mkTensor3 ms n1 n2) (mkBatchEncoding ids mask (encs ++ more_encs))
  = UDTubeEncoder._group_embeddings
      (mkTensor3 ms n1 n2) (mkBatchEncoding ids' mask' encs) /\
  UDTubeEncoder._group_embeddings
    (mkTensor3 (ms ++ more_ms) n1 n2) (mkBatchEncoding ids mask encs)
  = UDTubeEncoder._group_embeddings
      (mkTensor3 ms n1 n2) (mkBatchEncoding ids' mask' encs).
Proof.
  intros Hlen. unfold UDTubeEncoder._group_embeddings; cbn [encodings].
  split; do 2 f_equal.
  - rewrite (zip_with_app_l pair).
    rewrite take_ge, drop_ge by (rewrite length_unbind; cbn; lia).
    rewrite zip_with_nil_r. apply app_nil_r.
  - rewrite unbind_app, (zip_with_app_r pair).
    rewrite take_ge, drop_ge by (rewrite length_unbind; cbn; lia).
    apply app_nil_r.
Qed.

Lemma X_aggregator_ignores_unpaired_sentences_witness :
  UDTubeEncoder._group_embeddings
    (mkTensor3 [[[1; 2]; [3; 4]]]%Q 2 2)
    (mkBatchEncoding (mkTensor2 [] 2) (mkTensor2 [] 2)
       ([encode [Some 0; Some 1]] ++ [encode [Some 0; Some 0]]))
  = UDTubeEncoder._group_embeddings
      (mkTensor3 [[[1; 2]; [3; 4]]]%Q 2 2)
      (mkBatchEncoding (mkTensor2 [[7; 8]%Z] 2) (mkTensor2 [[1; 1]%Z] 2)
         [encode [Some 0; Some 1]]).
Proof.
  exact (proj1 (@X_aggregator_ignores_unpaired_sentences Q Q_scalar
                  [[[1; 2]; [3; 4]]]%Q [] 2 2
                  (mkTensor2 [] 2) (mkTensor2 [[7; 8]%Z] 2)
                  (mkTensor2 [] 2) (mkTensor2 [[1; 1]%Z] 2)
                  [encode [Some 0; Some 1]] [encode [Some 0; Some 0]]
                  eq_refl)).
Defined.

Section Invariants.
Context {R : Type} `{Scalar R}.


End Invariants.



Lemma spans_from_bounds (s0 : nat) (lens : list nat) (s e : nat) :
  (s, e) ∈ spans_from s0 lens ->
  s0 <= s /\ s <= e /\ e <= s0 + list_sum lens.
Proof.
  revert s0; induction lens as [| n rest IH]; intros s0 Hin;
    cbn [spans_from] in Hin.
  - apply elem_of_nil in Hin. destruct Hin.
  - rewrite list_sum_cons.
    apply elem_of_cons in Hin as [[= -> ->] | Hin]; [lia |].
    apply IH in Hin. lia.
Qed.

Lemma slice_take {A : Type} (s e n : nat) (l : list A) :
  s <= e -> e <= n -> slice s e (take n l) = slice s e l.
Proof.
  intros Hse Hen. unfold slice.
  rewrite !take_drop_commute, take_take.
  replace ((s + (e - s)) `min` n) with (s + (e - s)) by lia.
  reflexivity.
Qed.

Section Padding.
Context {R : Type} `{Scalar R}.

(** The word embeddings of a sentence are computed from the subword
    embeddings of its words alone. *)
Lemma span_means_take (lens : list nat) (m : list (list R)) (width : nat) :
  span_means (spans_from 0 lens) (mkTensor2 (take (list_sum lens) m) width)
  = span_means (spans_from 0 lens) (mkTensor2 m width).
Proof.
  unfold span_means; cbn [cols]. f_equal.
  apply map_ext_in. intros [s e] Hin. apply list_elem_of_In in Hin.
  apply spans_from_bounds in Hin as (_ & Hse & He).
  unfold mean0, slice2, len; cbn [rows cols].
  rewrite slice_take by lia. reflexivity.
Qed.

End Padding.

(** X12.  The aggregator never reads the subword embeddings at padding
    positions: on a well-tokenized batch, two embedding tensors of the same
    hidden size that agree, in every sentence, on the positions of the
    sentence's real subwords give the same outcome. *)
Theorem X_padding_positions_are_not_read {R : Type} `{Scalar R}
    (embeddings embeddings' : Tensor3 R) (tokenized : BatchEncoding)
    (lenss : list (list nat)) :
  lenss <> [] ->
  Forall (fun lens => lens <> []) lenss ->
  Forall2 tokenized_as (encodings tokenized) lenss ->
  length (mats embeddings) = length (encodings tokenized) ->
  length (mats embeddings') = length (encodings tokenized) ->
  dim2 embeddings' = dim2 embeddings ->
  (forall b lens m m',
     lenss !! b = Some lens ->
     mats embeddings !! b = Some m ->
     mats embeddings' !! b = Some m' ->
     take (list_sum lens) m' = take (list_sum lens) m) ->
  UDTubeEncoder._group_embeddings embeddings' tokenized =
  UDTubeEncoder._group_embeddings embeddings tokenized.
Proof.
  intros Hbatch Hne Htok Hlen Hlen' Hwidth Hagree.
  rewrite (group_embeddings_tokenized embeddings tokenized lenss)
    by assumption.
  rewrite (group_embeddings_tokenized embeddings' tokenized lenss)
    by assumption.
  rewrite Hwidth. do 3 f_equal.
  unfold batch_span_means. apply list_eq. intros b.
  rewrite !lookup_zip_with. unfold unbind. rewrite !list_lookup_fmap.
  destruct (lenss !! b) as [lens |] eqn:Hl; [| reflexivity]. cbn.
  pose proof (Forall2_length _ _ _ Htok) as Hn.
  pose proof (lookup_lt_Some _ _ _ Hl) as Hb.
  destruct (lookup_lt_is_Some_2 (mats embeddings) b ltac:(lia)) as [m Hm].
  destruct (lookup_lt_is_Some_2 (mats embeddings') b ltac:(lia))
    as [m' Hm'].
  rewrite Hm, Hm'. cbn. f_equal. rewrite Hwidth.
  rewrite <- (span_means_take lens m'), <- (span_means_take lens m).
  rewrite (Hagree b lens m m' Hl Hm Hm'). reflexivity.
Qed.

Lemma X_padding_positions_are_not_read_witness :
  UDTubeEncoder._group_embeddings example_embeddings_other_padding
    example_tokenized
  = UDTubeEncoder._group_embeddings example_embeddings example_tokenized.
Proof.
  apply (@X_padding_positions_are_not_read Q Q_scalar example_embeddings
           example_embeddings_other_padding example_tokenized
           example_lenss);
    try reflexivity.
  - discriminate.
  - repeat constructor; discriminate.
  - exact example_batch_tokenized.
  - intros [| [| b]] lens m m' Hl Hm Hm'; cbn in Hl, Hm, Hm';
      try discriminate;
      injection Hl as <-; injection Hm as <-; injection Hm' as <-;
      reflexivity.
Defined.

(** ** The forward pass of the encoder *)

(** X13.  [forward] never changes how many subword positions the token ids and
    the attention mask have, and never touches the encodings.  It logs a
    warning exactly when the positions outnumber the encoder's maximum;
    within the maximum the batch is left as it was, and beyond it (for a
    non-negative maximum) the two tensors keep their first [max_length]
    sentences, whole. *)
Theorem X_forward_keeps_every_position {R : Type} `{Scalar R}
    (self : UDTubeEncoder.t R) (batch batch' : Batch)
    (log : list log_record) (result : outcome (Tensor3 R)) :
  UDTubeEncoder.forward self batch = (log, batch', result) ->
  let actual_length := Z.of_nat (cols (input_ids (tokens batch))) in
  let max_length := UDTubeEncoder.max_position_embeddings self in
  cols (input_ids (tokens batch')) = cols (input_ids (tokens batch)) /\
  cols (attention_mask (tokens batch'))
    = cols (attention_mask (tokens batch)) /\
  encodings (tokens batch') = encodings (tokens batch) /\
  (log <> [] <-> (max_length < actual_length)%Z) /\
  ((actual_length <= max_length)%Z -> batch' = batch) /\
  ((0 <= max_length < actual_length)%Z ->
   rows (input_ids (tokens batch'))
     = take (Z.to_nat max_length) (rows (input_ids (tokens batch))) /\
   rows (attention_mask (tokens batch'))
     = take (Z.to_nat max_length) (rows (attention_mask (tokens batch)))).
Proof.
  rewrite forward_after_trim. intros [= <- <- _].
  unfold UDTubeEncoder.trim. cbn zeta.
  destruct (Z.ltb_spec (UDTubeEncoder.max_position_embeddings self)
              (Z.of_nat (cols (input_ids (tokens batch)))))
    as [Hlong | Hshort]; cbn [fst snd tokens input_ids attention_mask
                               encodings slice_to2 cols rows].
  - do 3 (split; [reflexivity |]).
    split; [split; [intros _; exact Hlong | discriminate] |].
    split; [intros Hle; lia |].
    intros [Hmax _]. unfold slice_to.
    rewrite (proj2 (Z.leb_le _ _) Hmax). split; reflexivity.
  - do 3 (split; [reflexivity |]).
    split; [split; [congruence | lia] |].
    split; [reflexivity |]. intros Hlong. lia.
Qed.

Lemma X_forward_keeps_every_position_witness :
  exists log batch' result,
    UDTubeEncoder.forward two_position_encoder three_sentence_batch
      = (log, batch', result) /\
    cols (input_ids (tokens batch')) = 3 /\
    length (rows (input_ids (tokens batch'))) = 2 /\
    length (encodings (tokens batch')) = 3.
Proof.
  do 3 eexists. split; [reflexivity |].
  destruct (@X_forward_keeps_every_position Q Q_scalar two_position_encoder
              three_sentence_batch _ _ _ eq_refl)
    as (Hcols & _ & Henc & _ & _ & Hrows).
  split; [exact Hcols |]. split.
  - rewrite (proj1 (Hrows ltac:(cbn; lia))). reflexivity.
  - rewrite Henc. reflexivity.
Defined.

(** X14.  [forward] raises [AttributeError] for every encoder and every
    batch: after the trim has logged its warning and assigned the two
    tensors, the first argument of the encoder call reads [self.device],
    which the class does not define.  The encoder is not called, so the
    outcome is the same whatever the encoder model, the dropout layer and
    the number of pooling layers are. *)
Theorem X_forward_raises_AttributeError {R : Type} `{Scalar R}
    (self : UDTubeEncoder.t R) (batch : Batch)
    (encoder : Tensor2 Z -> Tensor2 Z -> outcome (list (Tensor3 R)))
    (dropout_layer : Tensor3 R -> Tensor3 R) (pooling_layers : Z) :
  UDTubeEncoder.forward self batch =
    (UDTubeEncoder.trim self batch, Raise AttributeError) /\
  UDTubeEncoder.forward
    (UDTubeEncoder.mk encoder (UDTubeEncoder.max_position_embeddings self)
       dropout_layer pooling_layers (UDTubeEncoder.optconf self)) batch =
  UDTubeEncoder.forward self batch.
Proof.
  rewrite !forward_after_trim. unfold UDTubeEncoder.trim; cbn.
  destruct (_ <? _)%Z; split; reflexivity.
Qed.
